(** * Weihnachtskalender: the fuzzy answer matcher of [RiddleModal]

    A shallow embedding of the answer-grading code of the riddle modal
    (getLevenshteinDistance, isFuzzyMatch and the grading branch of
    handleSubmit), together with the properties its specification states.

    Modelling conventions.
    - A JavaScript string is the list of its code units.  The edit distance
      is generic in the type of code units; the normalizer works on 8-bit
      code units ([ascii], read as U+0000..U+00FF, i.e. Basic Latin and
      Latin-1 Supplement, which covers the German riddle texts), for which
      [trim], [toLowerCase] and the punctuation regex act unit by unit.
    - A JavaScript array is a list of slots; a slot is [None] for a hole.
      Reading outside the array or reading a hole gives [None]
      ([undefined]); writing beyond the end extends the array with holes.
    - The distance computation runs in the option monad: [None] stands for
      a run that touches an undefined row or cell (a [TypeError] or a
      [NaN] in the source).  [getLevenshteinDistance_lev] shows that this
      never happens.
    - React state is a record and an event handler is a function from the
      state before the event to the state after it; what a component
      renders is a value of an inductive type with one constructor per
      branch of the JSX.  A timer callback and the continuation of an
      [await] are events of their own, applied to the state of the moment
      at which they run; what a callback captured when it was created is an
      argument of its function.
    - The calendar state, a JavaScript object keyed by day, is a [gmap]. *)

From Stdlib Require Import Ascii String.
From stdpp Require Import base option list strings gmap.

Open Scope nat_scope.

(** ** JavaScript arrays *)

Section jsarray.
Context {X : Type}.

Definition jsarray_get (arr : list (option X)) (i : nat) : option X :=
  mjoin (arr !! i).

(** [arr[i] = v] *)
Definition jsarray_set (arr : list (option X)) (i : nat) (v : X)
  : list (option X) :=
  if decide (i < length arr) then <[i := Some v]> arr
  else arr ++ replicate (i - length arr) None ++ [Some v].
End jsarray.

Abbreviation jsarray X := (list (option X)).

(** ** Counted loops in the option monad *)

Fixpoint for_each {St : Type} (idx : list nat) (body : nat → St → option St)
    (s : St) : option St :=
  match idx with
  | [] => Some s
  | i :: rest => body i s ≫= for_each rest body
  end.

(** [for (let i = lo; i <= hi; i++) body] *)
Definition for_upto {St : Type} (lo hi : nat) (body : nat → St → option St)
    (s : St) : option St :=
  for_each (seq lo (S hi - lo)) body s.

(** ** getLevenshteinDistance *)

Section distance.
Context {char : Type} `{EqDecision char}.
Implicit Types a b : list char.

(** [s.charAt(i)]: the empty string (here [None]) outside the string. *)
Definition charAt (s : list char) (i : nat) : option char := s !! i.

(** [!s] on a string: true exactly for the empty string. *)
Definition falsy (s : list char) : bool :=
  match s with [] => true | _ => false end.

Definition cell (matrix : jsarray (jsarray nat)) (i j : nat) : option nat :=
  row ← jsarray_get matrix i; jsarray_get row j.

(** [matrix[i][j] = v]; the row is updated in place. *)
Definition set_cell (matrix : jsarray (jsarray nat)) (i j v : nat)
  : option (jsarray (jsarray nat)) :=
  row ← jsarray_get matrix i;
  Some (jsarray_set matrix i (jsarray_set row j v)).

Definition init_first_column b (matrix : jsarray (jsarray nat))
  : option (jsarray (jsarray nat)) :=
  for_upto 0 (length b) (λ i m, Some (jsarray_set m i [Some i])) matrix.

Definition init_first_row a (matrix : jsarray (jsarray nat))
  : option (jsarray (jsarray nat)) :=
  for_upto 0 (length a) (λ j m, set_cell m 0 j j) matrix.

Definition fill_cell a b (i j : nat) (matrix : jsarray (jsarray nat))
  : option (jsarray (jsarray nat)) :=
  if decide (charAt b (i - 1) = charAt a (j - 1)) then
    d ← cell matrix (i - 1) (j - 1);
    set_cell matrix i j d
  else
    d ← cell matrix (i - 1) (j - 1);
    l ← cell matrix i (j - 1);
    t ← cell matrix (i - 1) j;
    set_cell matrix i j ((d + 1) `min` ((l + 1) `min` (t + 1))).

Definition fill_row a b (i : nat) (matrix : jsarray (jsarray nat))
  : option (jsarray (jsarray nat)) :=
  for_upto 1 (length a) (fill_cell a b i) matrix.

Definition fill a b (matrix : jsarray (jsarray nat))
  : option (jsarray (jsarray nat)) :=
  for_upto 1 (length b) (fill_row a b) matrix.

Definition getLevenshteinDistance a b : option nat :=
  if falsy a then Some (if falsy b then 0 else length b)
  else if falsy b then Some (if falsy a then 0 else length a)
  else
    matrix ← init_first_column b [];
    matrix ← init_first_row a matrix;
    matrix ← fill a b matrix;
    cell matrix (length b) (length a).
End distance.

(** ** The normalizer and isFuzzyMatch

    Strings handed to the matcher are lists of 8-bit code units. *)

Definition str (s : string) : list ascii := list_ascii_of_string s.

(** WhiteSpace and LineTerminator code points below U+0100: TAB, LF, VT, FF,
    CR, SPACE and NO-BREAK SPACE. *)
Definition isWhiteSpace (c : ascii) : bool :=
  match N_of_ascii c with
  | 9 | 10 | 11 | 12 | 13 | 32 | 160 => true
  | _ => false
  end%N.

Fixpoint trimStart (s : list ascii) : list ascii :=
  match s with
  | [] => []
  | c :: rest => if isWhiteSpace c then trimStart rest else s
  end.

Definition trimEnd (s : list ascii) : list ascii := rev (trimStart (rev s)).

(** [s.trim()] *)
Definition trim (s : list ascii) : list ascii := trimEnd (trimStart s).

(** The letters with a lowercase counterpart: A-Z, and in Latin-1 U+00C0 to
    U+00DE without the multiplication sign U+00D7. *)
Definition isUpperCase (c : ascii) : bool :=
  let n := N_of_ascii c in
  ((65 <=? n) && (n <=? 90) || (192 <=? n) && (n <=? 222) && negb (n =? 215))%N.

Definition toLowerCase_unit (c : ascii) : ascii :=
  if isUpperCase c then ascii_of_N (N_of_ascii c + 32) else c.

(** [s.toLowerCase()] *)
Definition toLowerCase (s : list ascii) : list ascii := map toLowerCase_unit s.

(** The character class of the regular expression: . , ! ? : ; ' and the
    double quote (code 34) and the hyphen. *)
Definition punctuation_class : list ascii :=
  ["."; ","; "!"; "?"; ":"; ";"; "'"; "034"; "-"]%char.

Definition stripped (c : ascii) : bool := existsb (Ascii.eqb c) punctuation_class.

(** [s.replace(/[...]/g, '')]: every match of the class is deleted. *)
Definition strip_punctuation (s : list ascii) : list ascii :=
  List.filter (λ c, negb (stripped c)) s.

Definition normalize (s : list ascii) : list ascii :=
  strip_punctuation (toLowerCase (trim s)).

(** A distance that is not a number ([None]) fails each of the comparisons. *)
Definition isFuzzyMatch (user correct : list ascii) : bool :=
  if falsy user || falsy correct then false
  else
    let a := normalize user in
    let b := normalize correct in
    if bool_decide (a = b) then true
    else
      match getLevenshteinDistance a b with
      | None => false
      | Some dist =>
          let len := length a `max` length b in
          if len <=? 3 then dist =? 0
          else if len <=? 7 then dist <=? 1
          else dist <=? 2
      end.

(** ** Riddles and the grading branch of handleSubmit *)

Inductive RiddleType := text | choice.

(** What the [acceptedAnswers] field of a riddle record holds at run time:
    the field may be absent, [null], a value that is no array, or an array
    of strings. *)
Inductive AcceptedAnswers :=
| Absent
| Null
| NotAnArray
| Answers (answers : list (list ascii)).

Record Riddle := {
  day : nat;
  question : list ascii;
  type : RiddleType;
  options : option (list (list ascii));
  correctAnswer : list ascii;
  acceptedAnswers : AcceptedAnswers;
  solutionExplanation : list ascii;
  hints : list (list ascii);
  imageUrl : option (list ascii)
}.

(** The value of [isCorrect] that handleSubmit computes for a riddle. *)
Definition isCorrect (riddle : Riddle) (userAnswer : list ascii) : bool :=
  match type riddle with
  | choice => bool_decide (userAnswer = correctAnswer riddle)
  | text =>
      if isFuzzyMatch userAnswer (correctAnswer riddle) then true
      else
        match acceptedAnswers riddle with
        | Answers answers =>
            if 0 <? length answers
            then existsb (isFuzzyMatch userAnswer) answers
            else false
        | Absent | Null | NotAnArray => false
        end
  end.

Inductive Feedback := ShowSuccess | ShowError.

(** handleSubmit does nothing without a riddle; otherwise it shows the
    success or the error message. *)
Definition handleSubmit (riddle : option Riddle) (userAnswer : list ascii)
  : option Feedback :=
  match riddle with
  | None => None
  | Some r => Some (if isCorrect r userAnswer then ShowSuccess else ShowError)
  end.

(** Two riddles to evaluate the grading on. *)
Definition nikolaus_riddle : Riddle := {|
  day := 6;
  question := str "Wer bringt die Geschenke?";
  type := text;
  options := None;
  correctAnswer := str "Weihnachtsmann";
  acceptedAnswers := Answers [str "Nikolaus"; str "Santa"];
  solutionExplanation := str "";
  hints := [];
  imageUrl := None
|}.

Definition choice_riddle : Riddle := {|
  day := 1;
  question := str "A, B oder C?";
  type := choice;
  options := Some [str "A"; str "B"; str "C"];
  correctAnswer := str "A";
  acceptedAnswers := Absent;
  solutionExplanation := str "";
  hints := [];
  imageUrl := None
|}.

(** ** Edit distance: the mathematical reference

    [edit1 x y]: [y] arises from [x] by one insertion, one deletion or one
    substitution of a single character, at any position.  [edits n x y]: a
    chain of [n] such operations transforms [x] into [y]. *)

Section edit_distance_definitions.
Context {char : Type} `{EqDecision char}.
Implicit Types x y z p s a b : list char.
Implicit Types c d : char.

Inductive edit1 : list char → list char → Prop :=
| edit1_insert p c s : edit1 (p ++ s) (p ++ c :: s)
| edit1_delete p c s : edit1 (p ++ c :: s) (p ++ s)
| edit1_substitute p c d s : c ≠ d → edit1 (p ++ c :: s) (p ++ d :: s).

Inductive edits : nat → list char → list char → Prop :=
| edits_refl x : edits 0 x x
| edits_step n x y z : edit1 x y → edits n y z → edits (S n) x z.

Definition diag_cost c d : nat := if decide (c = d) then 0 else 1.

(** The recurrence of the distance, on whole strings, always taking the
    minimum of the three candidates. *)
Fixpoint lev x : list char → nat :=
  match x with
  | [] => λ y, length y
  | c :: x' =>
      fix lev_row y : nat :=
        match y with
        | [] => length x
        | d :: y' =>
            (lev x' y' + diag_cost c d)
              `min` ((lev x' y + 1) `min` (lev_row y' + 1))
        end
  end.

(** The dynamic-programming grid as the specification words it: row 0 and
    column 0 hold 0..len, every other cell is the minimum of the diagonal
    neighbour (plus 0 on equal characters, plus 1 otherwise), the left
    neighbour plus 1 and the top neighbour plus 1. *)
Fixpoint reference_grid a b (i : nat) : nat → nat :=
  match i with
  | 0 => λ j, j
  | S i' =>
      fix reference_row (j : nat) : nat :=
        match j with
        | 0 => i
        | S j' =>
            (reference_grid a b i' j'
               + (if decide (b !! i' = a !! j') then 0 else 1))
              `min` ((reference_row j' + 1)
                       `min` (reference_grid a b i' j + 1))
        end
  end.

(** The bottom-right cell of the grid. *)
Definition reference_distance a b : nat :=
  reference_grid a b (length b) (length a).

(** *** The contents of the source's matrix during the run *)

(** The value the source stores in [matrix[i][j]]: the distance between
    the first [i] characters of [b] and the first [j] characters of [a]. *)
Definition grid a b (i j : nat) : nat :=
  lev (rev (take i b)) (rev (take j a)).

Definition grid_row a b (i n : nat) : jsarray nat :=
  (λ j, Some (grid a b i j)) <$> seq 0 n.

Definition rows_done a b (i : nat) : jsarray (jsarray nat) :=
  (λ k, Some (grid_row a b k (S (length a)))) <$> seq 0 i.

Definition rows_todo b (i : nat) : jsarray (jsarray nat) :=
  (λ k, Some [Some k]) <$> seq (S i) (length b - i).

(** The matrix while row [i] holds its first [n] cells. *)
Definition matrix_at a b (i n : nat) : jsarray (jsarray nat) :=
  rows_done a b i ++ Some (grid_row a b i n) :: rows_todo b i.
End edit_distance_definitions.

(** ** Notions the statements about the matcher use *)

(** The tier table of the specification: a distance [dist] is tolerated
    for the length [len]. *)
Definition within_tolerance (len dist : nat) : Prop :=
  (len ≤ 3 ∧ dist = 0) ∨ (4 ≤ len ≤ 7 ∧ dist ≤ 1) ∨ (7 < len ∧ dist ≤ 2).



(** The alternates that take part in grading: none unless the field holds
    an array. *)
Definition alternates (acc : AcceptedAnswers) : list (list ascii) :=
  match acc with
  | Answers answers => answers
  | Absent | Null | NotAnArray => []
  end.

(** ** String literals with Latin-1 letters

    A literal of this file is a sequence of UTF-8 bytes; [js] reads the
    two-byte sequences that encode U+0080..U+00FF as one code unit each. *)

Fixpoint latin1_units (bytes : list ascii) : list ascii :=
  match bytes with
  | [] => []
  | b1 :: rest =>
      match rest with
      | b2 :: rest' =>
          if ((N_of_ascii b1 =? 194) || (N_of_ascii b1 =? 195))%N
          then ascii_of_N ((N_of_ascii b1 - 192) * 64 + (N_of_ascii b2 - 128))
                 :: latin1_units rest'
          else b1 :: latin1_units rest
      | [] => [b1]
      end
  end.

Definition js (s : string) : list ascii := latin1_units (list_ascii_of_string s).

(** ** The riddle modal: state, event handlers and what it renders *)

Record ModalState := {
  userAnswer : list ascii;
  hintClicks : nat;
  showError : bool;
  showSuccess : bool;
  forceShowSolution : bool
}.

(** The initial state, which the effect on [day] also restores. *)
Definition initialModalState : ModalState := {|
  userAnswer := [];
  hintClicks := 0;
  showError := false;
  showSuccess := false;
  forceShowSolution := false
|}.

Definition setUserAnswer (value : list ascii) (st : ModalState) : ModalState := {|
  userAnswer := value;
  hintClicks := hintClicks st;
  showError := showError st;
  showSuccess := showSuccess st;
  forceShowSolution := forceShowSolution st
|}.

Definition setShowError (value : bool) (st : ModalState) : ModalState := {|
  userAnswer := userAnswer st;
  hintClicks := hintClicks st;
  showError := value;
  showSuccess := showSuccess st;
  forceShowSolution := forceShowSolution st
|}.

Definition setShowSuccess (value : bool) (st : ModalState) : ModalState := {|
  userAnswer := userAnswer st;
  hintClicks := hintClicks st;
  showError := showError st;
  showSuccess := value;
  forceShowSolution := forceShowSolution st
|}.

Definition handleHintClick (st : ModalState) : ModalState :=
  let newCount := hintClicks st + 1 in
  {|
    userAnswer := userAnswer st;
    hintClicks := newCount;
    showError := showError st;
    showSuccess := showSuccess st;
    forceShowSolution := if 4 <=? newCount then true else forceShowSolution st
  |}.

(** The state that handleSubmit leaves: unchanged without a riddle, the
    success flag set on a correct answer, the error flag set otherwise. *)
Definition handleSubmit_state (r : option Riddle) (st : ModalState)
  : ModalState :=
  match handleSubmit r (userAnswer st) with
  | None => st
  | Some ShowSuccess => setShowSuccess true st
  | Some ShowError => setShowError true st
  end.

Definition hintButtonText (st : ModalState) : list ascii :=
  let hintButtonText :=
    if hintClicks st =? 0 then js "1. Hinweis"
    else if hintClicks st =? 1 then js "2. Hinweis"
    else if hintClicks st =? 2 then js "3. Hinweis"
    else js "Lösung anzeigen" in
  if forceShowSolution st then js "Lösung angezeigt" else hintButtonText.

Inductive InputWidget :=
| RadioGroup (choices : list (list ascii * bool))
| TextInput (value : list ascii).

Inductive RiddleBody :=
| SolutionPanel (answer explanation : list ascii)
| AnswerForm (input : InputWidget) (errorShown : bool)
    (hintButtonLabel : list ascii) (hintButtonDisabled : bool).

Inductive ModalView :=
| RenderNothing
| LoadingSpinner
| SuccessPanel (explanation : list ascii)
| RiddlePanel (image : option (list ascii)) (questionText : list ascii)
    (tips : list (nat * list ascii)) (body : RiddleBody)
| ErrorMessage.

(** The hints below the question: [hints.slice(0, hintClicks)], numbered
    from 1, and nothing before the first click. *)
Definition visibleHints (r : Riddle) (st : ModalState)
  : list (nat * list ascii) :=
  if 0 <? hintClicks st
  then imap (λ idx hint, (idx + 1, hint)) (take (hintClicks st) (hints r))
  else [].

(** The radio buttons of a choice riddle with a non-empty option array,
    each with its [checked] flag; the text input otherwise. *)
Definition inputWidget (r : Riddle) (st : ModalState) : InputWidget :=
  match type r, options r with
  | choice, Some (o :: os) =>
      RadioGroup
        ((λ option, (option, bool_decide (userAnswer st = option)))
           <$> (o :: os))
  | _, _ => TextInput (userAnswer st)
  end.

Definition RiddleModal_render (r : option Riddle) (isLoading : bool)
    (st : ModalState) : ModalView :=
  if bool_decide (r = None) && negb isLoading then RenderNothing
  else if isLoading then LoadingSpinner
  else
    match r with
    | Some r =>
        if showSuccess st then SuccessPanel (solutionExplanation r)
        else
          RiddlePanel
            (match imageUrl r with
             | Some url => if falsy url then None else Some url
             | None => None
             end)
            (question r)
            (visibleHints r st)
            (if forceShowSolution st
             then SolutionPanel (correctAnswer r) (solutionExplanation r)
             else AnswerForm (inputWidget r st) (showError st)
                    (hintButtonText st) (forceShowSolution st))
    | None => ErrorMessage
    end.

(** The form, with its input, its submit button and its hint button, is
    part of what is rendered. *)
Definition form_rendered (r : option Riddle) (isLoading : bool)
    (st : ModalState) : bool :=
  match RiddleModal_render r isLoading st with
  | RiddlePanel _ _ _ (AnswerForm _ _ _ _) => true
  | _ => false
  end.

Definition hint_button_enabled (r : option Riddle) (isLoading : bool)
    (st : ModalState) : bool :=
  match RiddleModal_render r isLoading st with
  | RiddlePanel _ _ _ (AnswerForm _ _ _ disabled) => negb disabled
  | _ => false
  end.

(** One event of the modal: the day changes, the error timer fires, or the
    user acts on an element of the rendered form. *)
Inductive modal_step : ModalState → ModalState → Prop :=
| step_day_change st : modal_step st initialModalState
| step_error_timeout st : modal_step st (setShowError false st)
| step_input r isLoading st value :
    form_rendered r isLoading st = true →
    modal_step st (setUserAnswer value st)
| step_hint r isLoading st :
    hint_button_enabled r isLoading st = true →
    modal_step st (handleHintClick st)
| step_submit r isLoading st :
    form_rendered r isLoading st = true →
    modal_step st (handleSubmit_state r st).

Definition modal_reachable (st : ModalState) : Prop :=
  rtc modal_step initialModalState st.

(** One event of the modal while it is rendered with the riddle [o] and the
    loading flag [isLoading]: the same events, for these props. *)
Inductive modal_step_on (o : option Riddle) (isLoading : bool)
  : ModalState → ModalState → Prop :=
| on_day_change st : modal_step_on o isLoading st initialModalState
| on_error_timeout st : modal_step_on o isLoading st (setShowError false st)
| on_input st value :
    form_rendered o isLoading st = true →
    modal_step_on o isLoading st (setUserAnswer value st)
| on_hint st :
    hint_button_enabled o isLoading st = true →
    modal_step_on o isLoading st (handleHintClick st)
| on_submit st :
    form_rendered o isLoading st = true →
    modal_step_on o isLoading st (handleSubmit_state o st).

(** What holds in every state the events can lead to. *)
Definition hint_invariant (st : ModalState) : Prop :=
  hintClicks st ≤ 4 ∧ (forceShowSolution st = true ↔ hintClicks st = 4).

Definition is_ErrorMessage (view : ModalView) : bool :=
  match view with
  | ErrorMessage => true
  | _ => false
  end.

(** A riddle as the service delivers it, with an image. *)
Definition rentier_riddle : Riddle := {|
  day := 7;
  question := js "Wie viele Rentiere ziehen den Schlitten?";
  type := choice;
  options := Some [str "6"; str "8"; str "9"; str "12"];
  correctAnswer := str "9";
  acceptedAnswers := Absent;
  solutionExplanation := js "Acht Rentiere und Rudolph.";
  hints := [js "Zähle nach."; js "Einer führt."; js "Acht plus eins."];
  imageUrl := Some (str "data:image/png;base64,iVBORw0KGgo=")
|}.

(** ** The door grid *)

(** The two readings of [currentDate] the grid takes. *)
Record JsDate := {
  getMonth : nat;
  getDate : nat
}.

(** A door of the calendar state; a flag that an update never wrote is
    absent. *)
Record DoorState := {
  isOpen : option bool;
  isSolved : option bool;
  riddle : option Riddle
}.

Definition truthy (flag : option bool) : bool := default false flag.

Definition days : list nat := (λ i, i + 6) <$> seq 0 19.

Definition canOpen (date : JsDate) (d : nat) : bool :=
  (getMonth date =? 11) && (d <=? getDate date).

(** [calendarState[day] || { isOpen: false, isSolved: false }] *)
Definition doorState (cs : gmap nat DoorState) (d : nat) : DoorState :=
  default {| isOpen := Some false; isSolved := Some false; riddle := None |}
    (cs !! d).

Inductive DoorStyle := SolvedStyle | OpenableStyle | LockedStyle.
Inductive DoorIcon := CheckIcon | LockIcon | GiftIcon.

Record DoorButton := {
  door_day : nat;
  door_disabled : bool;
  door_style : DoorStyle;
  door_icon : DoorIcon;
  door_overlay : bool
}.

Definition doorButton (date : JsDate) (cs : gmap nat DoorState) (d : nat)
  : DoorButton :=
  let state := doorState cs d in
  {|
    door_day := d;
    door_disabled := negb (canOpen date d) && negb (truthy (isSolved state));
    door_style :=
      if truthy (isSolved state) then SolvedStyle
      else if canOpen date d then OpenableStyle
      else LockedStyle;
    door_icon :=
      if truthy (isSolved state) then CheckIcon
      else if negb (canOpen date d) then LockIcon
      else GiftIcon;
    door_overlay := negb (canOpen date d)
  |}.

Definition DoorGrid (date : JsDate) (cs : gmap nat DoorState)
  : list DoorButton :=
  doorButton date cs <$> days.

(** ** The application state and its handlers *)

Record AppState := {
  currentDate : JsDate;
  calendarState : gmap nat DoorState;
  selectedDay : option nat;
  currentRiddle : option Riddle;
  loadingRiddle : bool;
  showDebug : bool
}.

(** The checks of handleOpenDoor on a fetched riddle.  The record type
    makes [hints] an array, for which the hint fallback does not fire. *)
Definition validateRiddle (r : Riddle) : Riddle := {|
  day := day r;
  question :=
    if falsy (question r) then js "Konnte Frage nicht laden." else question r;
  type :=
    match type r, options r with
    | choice, None => text
    | t, _ => t
    end;
  options := options r;
  correctAnswer :=
    if falsy (correctAnswer r) then js "Fehler" else correctAnswer r;
  acceptedAnswers := acceptedAnswers r;
  solutionExplanation :=
    if falsy (solutionExplanation r) then js "Keine Erklärung verfügbar."
    else solutionExplanation r;
  hints := hints r;
  imageUrl := imageUrl r
|}.

(** [{ ...prev[day], isOpen: true, riddle: riddle }] *)
Definition openedDoor (prev : option DoorState) (r : Riddle) : DoorState := {|
  isOpen := Some true;
  isSolved := prev ≫= isSolved;
  riddle := Some r
|}.

(** [{ ...prev[selectedDay], isSolved: true }] *)
Definition solvedDoor (prev : option DoorState) : DoorState := {|
  isOpen := prev ≫= isOpen;
  isSolved := Some true;
  riddle := prev ≫= riddle
|}.


(** handleOpenDoor after its [await], applied to the state of the moment at
    which the fetch settles; [outcome] is the fetched riddle, [None] when
    generateRiddleForDay rejects.  The calendar is updated through
    [setCalendarState(prev => ...)], the loading flag is cleared in the
    [finally] block. *)
Definition handleOpenDoor_settled (d : nat) (outcome : option Riddle)
    (st : AppState) : AppState :=
  match outcome with
  | Some r => {|
      currentDate := currentDate st;
      calendarState :=
        <[d := openedDoor (calendarState st !! d) (validateRiddle r)]>
          (calendarState st);
      selectedDay := selectedDay st;
      currentRiddle := Some (validateRiddle r);
      loadingRiddle := false;
      showDebug := showDebug st
    |}
  | None => {|
      currentDate := currentDate st;
      calendarState := calendarState st;
      selectedDay := selectedDay st;
      currentRiddle := currentRiddle st;
      loadingRiddle := false;
      showDebug := showDebug st
    |}
  end.


(** handleRiddleSolved as the success timer of the modal calls it:
    [selected] is the [selectedDay] of the render that created the
    callback, and the calendar is updated through
    [setCalendarState(prev => ...)] in the state of the moment.  The second
    component tells whether the timer that closes the modal was started. *)
Definition handleRiddleSolved (selected : option nat) (st : AppState)
  : AppState * bool :=
  match selected with
  | None => (st, false)
  | Some d =>
      ({| currentDate := currentDate st;
          calendarState :=
            <[d := solvedDoor (calendarState st !! d)]> (calendarState st);
          selectedDay := selectedDay st;
          currentRiddle := currentRiddle st;
          loadingRiddle := loadingRiddle st;
          showDebug := showDebug st |},
       true)
  end.

(** What that timer does half a second later. *)
Definition handleRiddleSolved_timeout (st : AppState) : AppState := {|
  currentDate := currentDate st;
  calendarState := calendarState st;
  selectedDay := None;
  currentRiddle := None;
  loadingRiddle := loadingRiddle st;
  showDebug := showDebug st
|}.

Definition handleCloseModal (st : AppState) : AppState := {|
  currentDate := currentDate st;
  calendarState := calendarState st;
  selectedDay := None;
  currentRiddle := None;
  loadingRiddle := loadingRiddle st;
  showDebug := showDebug st
|}.


(** [{ ...door.riddle, imageUrl: undefined }] *)
Definition withoutImage (r : Riddle) : Riddle := {|
  day := day r;
  question := question r;
  type := type r;
  options := options r;
  correctAnswer := correctAnswer r;
  acceptedAnswers := acceptedAnswers r;
  solutionExplanation := solutionExplanation r;
  hints := hints r;
  imageUrl := None
|}.




(** ** The riddle service: category and JSON text *)

Definition categories : list (list ascii) := [
  js "Logik & Deduktion (Professor Layton Stil: Schlussfolgerungen, Wer lügt/sagt die Wahrheit, Logikgitter, Sitzordnungen)";
  js "Weihnachts-Mathematik (Textaufgaben, Rechenrätsel mit Geschenken/Rentieren, Zeitberechnungen, Kombinatorik)";
  js "Mustererkennung & Reihenfolgen (Zahlenreihen fortsetzen, Logische Abfolgen von Symbolen)";
  js "Laterales Denken & Wortspiele (Um-die-Ecke-Denken, Fangfragen, klassische Rätselreime)"
].

(** [categories[day % categories.length]] *)
Definition selectedCategory (d : nat) : option (list ascii) :=
  categories !! (d mod length categories).

Fixpoint indexOf_from (s : list ascii) (c : ascii) (i : Z) : Z :=
  match s with
  | [] => -1
  | x :: rest => if Ascii.eqb x c then i else indexOf_from rest c (i + 1)
  end%Z.

(** [s.indexOf(c)]: the first index of [c], or -1. *)
Definition indexOf (s : list ascii) (c : ascii) : Z := indexOf_from s c 0.

(** [s.lastIndexOf(c)]: the last index of [c], or -1. *)
Definition lastIndexOf (s : list ascii) (c : ascii) : Z :=
  let fromEnd := indexOf (rev s) c in
  if (fromEnd =? -1)%Z then (-1)%Z
  else (Z.of_nat (length s) - 1 - fromEnd)%Z.

(** [s.substring(start, end)]: both indices are clamped to the string and
    swapped when the first is the larger one. *)
Definition substring (s : list ascii) (start finish : Z) : list ascii :=
  let clamp z := Z.to_nat (Z.min (Z.max z 0) (Z.of_nat (length s))) in
  let from := clamp start `min` clamp finish in
  let to := clamp start `max` clamp finish in
  take (to - from) (drop from s).

(** The text handed to JSON.parse, or [None] where the service throws for
    want of a brace. *)
Definition jsonString (text : list ascii) : option (list ascii) :=
  let firstBrace := indexOf text "{"%char in
  let lastBrace := lastIndexOf text "}"%char in
  if ((firstBrace =? -1) || (lastBrace =? -1))%Z then None
  else Some (substring text firstBrace (lastBrace + 1)).

(** The prompt for the image quotes the beginning of the question. *)
Definition imagePrompt (question : list ascii) : list ascii :=
  str "Christmas anime watercolor art: " ++ substring question 0 150
    ++ str ". Cozy, detailed, no text.".

(** The parts of the image response: a part may carry inline data, a MIME
    type and the data in base 64.  Each such part overwrites [imageUrl]. *)
Definition extractImage (parts : list (option (list ascii * list ascii)))
  : option (list ascii) :=
  foldl (λ imageUrl part,
           match part with
           | Some (mimeType, data) =>
               Some (str "data:" ++ mimeType ++ str ";base64," ++ data)
           | None => imageUrl
           end)
    None parts.

(** * Properties

    ** The recurrence [lev] is the least number of edits *)

Section edit_distance.
Context {char : Type} `{EqDecision char}.
Implicit Types x y z p s : list char.
Implicit Types c d : char.

Lemma lev_nil_l y : lev [] y = length y.
Proof. reflexivity. Qed.

Lemma lev_nil_r x : lev x [] = length x.
Proof. by destruct x. Qed.

Lemma lev_cons_cons c d x y :
  lev (c :: x) (d :: y) =
  (lev x y + diag_cost c d)
    `min` ((lev x (d :: y) + 1) `min` (lev (c :: x) y + 1)).
Proof. reflexivity. Qed.

Lemma diag_cost_sym c d : diag_cost c d = diag_cost d c.
Proof. unfold diag_cost. repeat case_decide; congruence. Qed.

Lemma diag_cost_le c d : diag_cost c d ≤ 1.
Proof. unfold diag_cost. case_decide; lia. Qed.

Lemma lev_sym x y : lev x y = lev y x.
Proof.
  revert y. induction x as [|c x IHx]; intros y.
  - by rewrite lev_nil_l, lev_nil_r.
  - induction y as [|d y IHy].
    + by rewrite lev_nil_l, lev_nil_r.
    + rewrite !lev_cons_cons, IHy, !IHx, (diag_cost_sym c d). lia.
Qed.

(** *** One edit changes the distance by at most one *)

Lemma lev_insert_head x d y : lev x (d :: y) ≤ lev x y + 1.
Proof.
  destruct x as [|c x].
  - rewrite !lev_nil_l. simpl. lia.
  - rewrite lev_cons_cons. lia.
Qed.

Lemma lev_cons_l c x y : lev (c :: x) y ≤ lev x y + 1.
Proof. rewrite (lev_sym (c :: x)), (lev_sym x). apply lev_insert_head. Qed.

Lemma lev_delete_head x d y : lev x y ≤ lev x (d :: y) + 1.
Proof.
  induction x as [|c x IHx].
  - rewrite !lev_nil_l. simpl. lia.
  - rewrite lev_cons_cons.
    pose proof (lev_cons_l c x y). lia.
Qed.

Lemma lev_substitute_head x d1 d2 y :
  lev x (d2 :: y) ≤ lev x (d1 :: y) + 1.
Proof.
  induction x as [|c x IHx].
  - rewrite !lev_nil_l. simpl. lia.
  - rewrite !lev_cons_cons.
    pose proof (diag_cost_le c d2). lia.
Qed.

Lemma lev_under_head d y z :
  (∀ x, lev x z ≤ lev x y + 1) →
  ∀ x, lev x (d :: z) ≤ lev x (d :: y) + 1.
Proof.
  intros Hyz x. induction x as [|c x IHx].
  - specialize (Hyz []). rewrite !lev_nil_l in *. simpl. lia.
  - rewrite !lev_cons_cons.
    pose proof (Hyz x). pose proof (Hyz (c :: x)). lia.
Qed.

Lemma lev_edit1_r y z : edit1 y z → ∀ x, lev x z ≤ lev x y + 1.
Proof.
  intros [p c s|p c s|p c d s _]; induction p as [|e p IHp]; simpl;
    auto using lev_insert_head, lev_delete_head, lev_substitute_head,
      lev_under_head.
Qed.

Lemma edit1_sym x y : edit1 x y → edit1 y x.
Proof. intros [p c s|p c s|p c d s Hcd]; constructor; congruence. Qed.

Lemma lev_edit1_l x y : edit1 x y → ∀ z, lev x z ≤ lev y z + 1.
Proof.
  intros Hxy z. rewrite (lev_sym x), (lev_sym y).
  by apply lev_edit1_r, edit1_sym.
Qed.

Lemma lev_refl x : lev x x = 0.
Proof.
  induction x as [|c x IHx]; [done|].
  rewrite lev_cons_cons, IHx. unfold diag_cost. rewrite decide_True by done.
  lia.
Qed.

(** No chain of edits is shorter than [lev]. *)
Lemma lev_le_edits n x y : edits n x y → lev x y ≤ n.
Proof.
  induction 1 as [x|n x y z Hxy _ IH].
  - by rewrite lev_refl.
  - pose proof (lev_edit1_l x y Hxy z). lia.
Qed.

(** *** Chains of edits *)

Lemma edit1_cons c x y : edit1 x y → edit1 (c :: x) (c :: y).
Proof.
  intros [p e s|p e s|p e d s Hed].
  - apply (edit1_insert (c :: p)).
  - apply (edit1_delete (c :: p)).
  - by apply (edit1_substitute (c :: p)).
Qed.

Lemma edits_cons c n x y : edits n x y → edits n (c :: x) (c :: y).
Proof. induction 1; econstructor; eauto using edit1_cons. Qed.

Lemma edits_trans n m x y z :
  edits n x y → edits m y z → edits (n + m) x z.
Proof. induction 1; simpl; [done|]. intros. econstructor; eauto. Qed.

Lemma edits_one x y : edit1 x y → edits 1 x y.
Proof. intros. econstructor; [done|constructor]. Qed.

Lemma edits_sym n x y : edits n x y → edits n y x.
Proof.
  induction 1 as [x|n x y z Hxy _ IH]; [constructor|].
  replace (S n) with (n + 1) by lia.
  eapply edits_trans; [done|]. by apply edits_one, edit1_sym.
Qed.

Lemma edit1_rev x y : edit1 x y → edit1 (rev x) (rev y).
Proof.
  intros [p c s|p c s|p c d s Hcd];
    rewrite !rev_app_distr; simpl; rewrite <- !app_assoc; simpl.
  - apply edit1_insert.
  - apply edit1_delete.
  - by apply edit1_substitute.
Qed.

Lemma edits_rev n x y : edits n x y → edits n (rev x) (rev y).
Proof. induction 1; econstructor; eauto using edit1_rev. Qed.

Lemma edits_from_nil y : edits (length y) [] y.
Proof.
  induction y as [|d y IHy]; [constructor|]. simpl.
  econstructor; [apply (edit1_insert [] d [])|]. by apply edits_cons.
Qed.

Lemma edits_to_nil x : edits (length x) x [].
Proof. apply edits_sym, edits_from_nil. Qed.

(** [lev] is attained by a chain of edits. *)
Lemma edits_lev x y : edits (lev x y) x y.
Proof.
  revert y. induction x as [|c x IHx]; intros y.
  - apply edits_from_nil.
  - induction y as [|d y IHy].
    + rewrite lev_nil_r. apply edits_to_nil.
    + rewrite lev_cons_cons.
      destruct (Nat.min_spec (lev x y + diag_cost c d)
                  ((lev x (d :: y) + 1) `min` (lev (c :: x) y + 1)))
        as [[_ ->]|[_ ->]].
      * unfold diag_cost. case_decide as Hcd.
        -- subst. rewrite Nat.add_0_r. apply edits_cons, IHx.
        -- rewrite Nat.add_1_r.
           econstructor; [by apply (edit1_substitute [] c d x)|].
           apply edits_cons, IHx.
      * destruct (Nat.min_spec (lev x (d :: y) + 1) (lev (c :: x) y + 1))
          as [[_ ->]|[_ ->]]; rewrite Nat.add_1_r.
        -- econstructor; [apply (edit1_delete [] c x)|]. apply IHx.
        -- econstructor; [apply (edit1_insert [] d (c :: x))|].
           apply edits_cons, IHy.
Qed.

Lemma lev_triangle x y z : lev x z ≤ lev x y + lev y z.
Proof. eapply lev_le_edits, edits_trans; apply edits_lev. Qed.

Lemma lev_rev x y : lev (rev x) (rev y) = lev x y.
Proof.
  apply Nat.le_antisymm.
  - apply lev_le_edits, edits_rev, edits_lev.
  - rewrite <- (rev_involutive x), <- (rev_involutive y) at 1.
    apply lev_le_edits, edits_rev, edits_lev.
Qed.

(** The recurrence as the source evaluates it: on equal characters the
    diagonal value is taken without looking at the two neighbours. *)
Lemma lev_cons_same c x y : lev (c :: x) (c :: y) = lev x y.
Proof.
  rewrite lev_cons_cons. unfold diag_cost. rewrite decide_True by done.
  pose proof (lev_delete_head x c y).
  pose proof (lev_delete_head y c x) as Hl.
  rewrite (lev_sym y), (lev_sym y (c :: x)) in Hl. lia.
Qed.

Lemma lev_cons_diff c d x y :
  c ≠ d →
  lev (c :: x) (d :: y) =
  (lev x y + 1) `min` ((lev x (d :: y) + 1) `min` (lev (c :: x) y + 1)).
Proof.
  intros. rewrite lev_cons_cons. unfold diag_cost.
  by rewrite decide_False by done.
Qed.
End edit_distance.

(** ** The loops of getLevenshteinDistance compute [lev] *)

Section jsarray_facts.
Context {X : Type}.
Implicit Types arr : jsarray X.

Lemma jsarray_set_end arr i v :
  i = length arr → jsarray_set arr i v = arr ++ [Some v].
Proof.
  intros ->. unfold jsarray_set. rewrite decide_False by lia.
  by rewrite Nat.sub_diag.
Qed.

Lemma jsarray_set_middle (pre post : jsarray X) (old : option X) i v :
  i = length pre →
  jsarray_set (pre ++ old :: post) i v = pre ++ Some v :: post.
Proof.
  intros ->. unfold jsarray_set. rewrite decide_True.
  - rewrite <- (Nat.add_0_r (length pre)) at 1.
    by rewrite insert_app_r.
  - rewrite length_app. simpl. lia.
Qed.

Lemma jsarray_get_middle (pre post : jsarray X) (x : option X) i :
  i = length pre → jsarray_get (pre ++ x :: post) i = x.
Proof. intros ->. unfold jsarray_get. by rewrite list_lookup_middle. Qed.

Lemma jsarray_get_app_l (pre post : jsarray X) i :
  i < length pre → jsarray_get (pre ++ post) i = jsarray_get pre i.
Proof. intros. unfold jsarray_get. by rewrite lookup_app_l. Qed.

Lemma jsarray_get_fmap_seq (f : nat → X) n i :
  i < n → jsarray_get ((λ k, Some (f k)) <$> seq 0 n) i = Some (f i).
Proof.
  intros Hi. unfold jsarray_get.
  by rewrite list_lookup_fmap, lookup_seq_lt.
Qed.
End jsarray_facts.

Lemma for_each_app {St : Type} (body : nat → St → option St) idx1 idx2 s :
  for_each (idx1 ++ idx2) body s = for_each idx1 body s ≫= for_each idx2 body.
Proof.
  revert s. induction idx1 as [|i idx1 IH]; intros s; simpl; [done|].
  destruct (body i s); simpl; auto.
Qed.

(** A loop whose [k]-th iteration takes the state [inv k] to [inv (S k)]. *)
Lemma for_each_invariant {St : Type} (body : nat → St → option St)
    (inv : nat → St) (n lo : nat) :
  (∀ k, lo ≤ k < lo + n → body k (inv k) = Some (inv (S k))) →
  for_each (seq lo n) body (inv lo) = Some (inv (lo + n)).
Proof.
  revert lo. induction n as [|n IH]; intros lo Hbody; simpl.
  - by rewrite Nat.add_0_r.
  - rewrite Hbody by lia. simpl. rewrite IH.
    + f_equal. f_equal. lia.
    + intros k Hk. apply Hbody. lia.
Qed.

Section distance_correct.
Context {char : Type} `{EqDecision char}.
Variables a b : list char.

Lemma grid_0_l j : j ≤ length a → grid a b 0 j = j.
Proof.
  intros. unfold grid. rewrite take_0. simpl.
  rewrite length_rev, length_take. lia.
Qed.

Lemma grid_0_r i : i ≤ length b → grid a b i 0 = i.
Proof.
  intros. unfold grid. rewrite take_0. change (rev []) with (@nil char).
  rewrite lev_nil_r, length_rev, length_take. lia.
Qed.

Lemma grid_S_S i j c d :
  b !! i = Some c → a !! j = Some d →
  grid a b (S i) (S j) =
  if decide (c = d) then grid a b i j
  else (grid a b i j + 1)
         `min` ((grid a b (S i) j + 1) `min` (grid a b i (S j) + 1)).
Proof.
  intros Hb Ha. unfold grid.
  rewrite (take_S_r b i c), (take_S_r a j d) by done.
  rewrite !rev_unit. case_decide as Hcd.
  - subst. apply lev_cons_same.
  - rewrite lev_cons_diff by done. lia.
Qed.

Lemma grid_S_S_min i j c d :
  b !! i = Some c → a !! j = Some d →
  grid a b (S i) (S j) =
  (grid a b i j + diag_cost c d)
    `min` ((grid a b (S i) j + 1) `min` (grid a b i (S j) + 1)).
Proof.
  intros Hb Ha. unfold grid.
  rewrite (take_S_r b i c), (take_S_r a j d) by done.
  rewrite !rev_unit, lev_cons_cons. lia.
Qed.

(** The grid of the specification holds the same numbers. *)
Lemma reference_grid_grid i j :
  i ≤ length b → j ≤ length a → reference_grid a b i j = grid a b i j.
Proof.
  revert j. induction i as [|i IHi]; intros j Hi Hj.
  - by rewrite grid_0_l.
  - induction j as [|j IHj].
    + by rewrite grid_0_r.
    + destruct (lookup_lt_is_Some_2 b i) as [c Hc]; [lia|].
      destruct (lookup_lt_is_Some_2 a j) as [d Hd]; [lia|].
      rewrite (grid_S_S_min i j c d) by done.
      rewrite <- IHj, <- !IHi by lia.
      change (reference_grid a b (S i) (S j)) with
        ((reference_grid a b i j
            + (if decide (b !! i = a !! j) then 0 else 1))
           `min` ((reference_grid a b (S i) j + 1)
                    `min` (reference_grid a b i (S j) + 1))).
      rewrite Hc, Hd. unfold diag_cost.
      destruct (decide (c = d)).
      * by rewrite decide_True by congruence.
      * by rewrite decide_False by congruence.
Qed.

Lemma length_rows_done i : length (rows_done a b i) = i.
Proof. unfold rows_done. by rewrite length_fmap, length_seq. Qed.

Lemma length_grid_row i n : length (grid_row a b i n) = n.
Proof. unfold grid_row. by rewrite length_fmap, length_seq. Qed.

Lemma grid_row_S i n : grid_row a b i (S n) = grid_row a b i n ++ [Some (grid a b i n)].
Proof. unfold grid_row. by rewrite seq_S, fmap_app. Qed.

Lemma cell_current i n j :
  j < n → cell (matrix_at a b i n) i j = Some (grid a b i j).
Proof.
  intros Hj. unfold cell, matrix_at.
  rewrite jsarray_get_middle by (by rewrite length_rows_done). simpl.
  by apply jsarray_get_fmap_seq.
Qed.

Lemma cell_done i n k j :
  k < i → j ≤ length a → cell (matrix_at a b i n) k j = Some (grid a b k j).
Proof.
  intros Hk Hj. unfold cell, matrix_at.
  rewrite jsarray_get_app_l by (by rewrite length_rows_done).
  unfold rows_done. rewrite jsarray_get_fmap_seq by done. simpl.
  apply jsarray_get_fmap_seq. lia.
Qed.

Lemma set_cell_current i n :
  set_cell (matrix_at a b i n) i n (grid a b i n) = Some (matrix_at a b i (S n)).
Proof.
  unfold set_cell, matrix_at.
  rewrite jsarray_get_middle by (by rewrite length_rows_done). simpl.
  rewrite jsarray_set_middle by (by rewrite length_rows_done).
  rewrite jsarray_set_end by (by rewrite length_grid_row).
  by rewrite grid_row_S.
Qed.

Lemma matrix_at_next_row i :
  i < length b → matrix_at a b i (S (length a)) = matrix_at a b (S i) 1.
Proof.
  intros Hi. unfold matrix_at.
  assert (rows_done a b (S i) =
          rows_done a b i ++ [Some (grid_row a b i (S (length a)))]) as ->.
  { unfold rows_done. by rewrite seq_S, fmap_app. }
  assert (rows_todo b i = Some [Some (S i)] :: rows_todo b (S i)) as ->.
  { unfold rows_todo.
    by replace (length b - i) with (S (length b - S i)) by lia. }
  assert (grid_row a b (S i) 1 = [Some (S i)]) as ->.
  { unfold grid_row. simpl. by rewrite grid_0_r by lia. }
  by rewrite <- app_assoc.
Qed.

Lemma init_first_column_spec :
  init_first_column b [] =
  Some ((λ k, Some [Some k]) <$> seq 0 (S (length b))).
Proof.
  unfold init_first_column, for_upto. rewrite Nat.sub_0_r.
  refine (for_each_invariant
            (λ i m, Some (jsarray_set m i [Some i]))
            (λ k, (λ k, Some [Some k]) <$> seq 0 k) (S (length b)) 0 _).
  intros k _. f_equal.
  rewrite seq_S, fmap_app. simpl.
  apply jsarray_set_end.
  by rewrite length_fmap, length_seq.
Qed.

Lemma init_first_row_spec :
  init_first_row a ((λ k, Some [Some k]) <$> seq 0 (S (length b))) =
  Some (matrix_at a b 0 (S (length a))).
Proof.
  unfold init_first_row, for_upto. rewrite Nat.sub_0_r.
  change (seq 0 (S (length a))) with ([0] ++ seq 1 (length a)).
  rewrite for_each_app.
  assert (((λ k, Some [Some k]) <$> seq 0 (S (length b))) = matrix_at a b 0 1)
    as ->.
  { unfold matrix_at, rows_todo, grid_row. simpl.
    by rewrite Nat.sub_0_r, grid_0_l by lia. }
  assert (for_each [0] (λ j m, set_cell m 0 j j) (matrix_at a b 0 1)
          = Some (matrix_at a b 0 1)) as ->.
  { simpl. unfold set_cell, matrix_at. simpl.
    unfold grid_row. simpl. by rewrite grid_0_l by lia. }
  simpl.
  refine (for_each_invariant (λ j m, set_cell m 0 j j) (matrix_at a b 0)
            (length a) 1 _).
  intros j Hj. pose proof (set_cell_current 0 j) as Hset.
  by rewrite grid_0_l in Hset by lia.
Qed.

Lemma fill_cell_spec i j :
  1 ≤ i ≤ length b → 1 ≤ j ≤ length a →
  fill_cell a b i j (matrix_at a b i j) = Some (matrix_at a b i (S j)).
Proof.
  intros Hi Hj.
  destruct i as [|i]; [lia|]. destruct j as [|j]; [lia|].
  destruct (lookup_lt_is_Some_2 b i) as [c Hc]; [lia|].
  destruct (lookup_lt_is_Some_2 a j) as [d Hd]; [lia|].
  unfold fill_cell, charAt. simpl. rewrite !Nat.sub_0_r, Hc, Hd.
  rewrite (cell_done (S i) (S j) i j) by lia.
  rewrite (cell_done (S i) (S j) i (S j)) by lia.
  rewrite (cell_current (S i) (S j) j) by lia.
  pose proof (grid_S_S i j c d Hc Hd) as Hgrid.
  destruct (decide (c = d)) as [Heq|Hne].
  - rewrite decide_True by congruence. simpl.
    rewrite <- Hgrid. apply set_cell_current.
  - rewrite decide_False by congruence. simpl.
    rewrite <- Hgrid. apply set_cell_current.
Qed.

Lemma fill_row_spec i :
  1 ≤ i ≤ length b →
  fill_row a b i (matrix_at a b i 1) = Some (matrix_at a b i (S (length a))).
Proof.
  intros Hi. unfold fill_row, for_upto. simpl. rewrite Nat.sub_0_r.
  replace (S (length a)) with (1 + length a) by lia.
  refine (for_each_invariant (fill_cell a b i) (matrix_at a b i) (length a) 1 _).
  intros j Hj. apply fill_cell_spec; lia.
Qed.

Lemma fill_spec :
  fill a b (matrix_at a b 0 (S (length a))) =
  Some (matrix_at a b (length b) (S (length a))).
Proof.
  unfold fill, for_upto. simpl. rewrite Nat.sub_0_r.
  pose proof (for_each_invariant (fill_row a b)
                (λ k, matrix_at a b (k - 1) (S (length a))) (length b) 1) as Hloop.
  simpl in Hloop. rewrite Nat.sub_0_r in Hloop. apply Hloop.
  intros k Hk. rewrite Nat.sub_0_r, matrix_at_next_row by lia.
  replace (S (k - 1)) with k by lia. apply fill_row_spec. lia.
Qed.

Lemma grid_full : grid a b (length b) (length a) = lev a b.
Proof.
  unfold grid. rewrite !firstn_all, lev_rev. apply lev_sym.
Qed.

(** The source always returns a number, and that number is [lev a b]. *)
Lemma getLevenshteinDistance_lev : getLevenshteinDistance a b = Some (lev a b).
Proof.
  unfold getLevenshteinDistance.
  destruct a as [|c a'] eqn:Ea; [by destruct b|].
  destruct b as [|d b'] eqn:Eb; [done|].
  rewrite <- Ea, <- Eb.
  replace (falsy a) with false by by subst.
  replace (falsy b) with false by by subst.
  rewrite init_first_column_spec. cbn [mbind option_bind].
  rewrite init_first_row_spec. cbn [mbind option_bind].
  rewrite fill_spec. cbn [mbind option_bind].
  rewrite cell_current by lia. by rewrite grid_full.
Qed.

Lemma reference_distance_lev : reference_distance a b = lev a b.
Proof.
  unfold reference_distance. by rewrite reference_grid_grid, grid_full.
Qed.
End distance_correct.

(** ** The claims about getLevenshteinDistance *)

Section distance_claims.
Context {char : Type} `{EqDecision char}.
Implicit Types a b c : list char.

(** C2: getLevenshteinDistance always returns a number; that number of
    single-character insertions, deletions and substitutions transforms
    [a] into [b], no smaller number does, and it is the bottom-right cell
    of the dynamic-programming grid of the specification. *)
Theorem getLevenshteinDistance_edit_distance a b :
  ∃ dist,
    getLevenshteinDistance a b = Some dist
    ∧ edits dist a b
    ∧ (∀ n, edits n a b → dist ≤ n)
    ∧ dist = reference_distance a b.
Proof.
  exists (lev a b). split; [apply getLevenshteinDistance_lev|].
  split; [apply edits_lev|].
  split; [intros n; apply lev_le_edits|].
  by rewrite reference_distance_lev.
Qed.

(** C8: the distance is symmetric. *)
Theorem getLevenshteinDistance_symmetric a b :
  getLevenshteinDistance a b = getLevenshteinDistance b a
  ∧ ∃ dist, getLevenshteinDistance a b = Some dist.
Proof. rewrite !getLevenshteinDistance_lev, lev_sym. eauto. Qed.

(** C9: the triangle inequality: the three distances are numbers and the
    distance from [a] to [c] is at most the distance from [a] to [b]
    plus the distance from [b] to [c]. *)
Theorem getLevenshteinDistance_triangle a b c :
  ∃ dac dab dbc,
    getLevenshteinDistance a c = Some dac
    ∧ getLevenshteinDistance a b = Some dab
    ∧ getLevenshteinDistance b c = Some dbc
    ∧ dac ≤ dab + dbc.
Proof.
  exists (lev a c), (lev a b), (lev b c).
  rewrite !getLevenshteinDistance_lev. auto using lev_triangle.
Qed.

(** The distance of a string to itself is 0. *)
Lemma getLevenshteinDistance_refl a : getLevenshteinDistance a a = Some 0.
Proof. by rewrite getLevenshteinDistance_lev, lev_refl. Qed.
End distance_claims.

(** ** The normalizer *)

Section code_units.
Implicit Types c : ascii.





End code_units.

Section trimming.
Implicit Types s t ws : list ascii.
Implicit Types P : ascii → bool.













End trimming.

Section normalizer.
Implicit Types s t : list ascii.










Lemma normalize_nil_inv s : normalize s ≠ [] → s ≠ [].
Proof. by intros Hs ->. Qed.
End normalizer.

(** ** isFuzzyMatch *)

Section matcher.
Implicit Types user correct x y : list ascii.

Lemma falsy_false {char : Type} (s : list char) : s ≠ [] → falsy s = false.
Proof. by destruct s. Qed.

(** The verdict for two non-empty inputs, with the distance spelled [lev]. *)
Lemma isFuzzyMatch_nonempty user correct :
  user ≠ [] → correct ≠ [] →
  isFuzzyMatch user correct =
  if bool_decide (normalize user = normalize correct) then true
  else
    if length (normalize user) `max` length (normalize correct) <=? 3
    then lev (normalize user) (normalize correct) =? 0
    else if length (normalize user) `max` length (normalize correct) <=? 7
    then lev (normalize user) (normalize correct) <=? 1
    else lev (normalize user) (normalize correct) <=? 2.
Proof.
  intros Hu Hc. unfold isFuzzyMatch.
  rewrite (falsy_false user), (falsy_false correct) by done. simpl.
  by rewrite getLevenshteinDistance_lev.
Qed.

Lemma least_edits_lev {char : Type} `{EqDecision char} (a b : list char)
    (dist : nat) :
  edits dist a b ∧ (∀ n, edits n a b → dist ≤ n) ↔ dist = lev a b.
Proof.
  split.
  - intros [Hchain Hleast]. apply Nat.le_antisymm.
    + apply Hleast, edits_lev.
    + by apply lev_le_edits.
  - intros ->. split; [apply edits_lev|]. intros n. apply lev_le_edits.
Qed.

(** C1: for inputs whose normalized forms are non-empty, isFuzzyMatch
    returns true exactly when the Levenshtein distance of the normalized
    forms, the least number of single-character insertions, deletions and
    substitutions that turn the one into the other, is within the
    tolerance of the tier of the longer normalized form: 0 up to length 3,
    at most 1 for lengths 4 to 7, at most 2 above. *)
Theorem isFuzzyMatch_tiers user correct :
  normalize user ≠ [] → normalize correct ≠ [] →
  (isFuzzyMatch user correct = true ↔
   ∃ dist,
     edits dist (normalize user) (normalize correct)
     ∧ (∀ n, edits n (normalize user) (normalize correct) → dist ≤ n)
     ∧ within_tolerance
         (length (normalize user) `max` length (normalize correct)) dist).
Proof.
  intros Hu Hc.
  rewrite isFuzzyMatch_nonempty by by apply normalize_nil_inv.
  assert ((∃ dist,
             edits dist (normalize user) (normalize correct)
             ∧ (∀ n, edits n (normalize user) (normalize correct) → dist ≤ n)
             ∧ within_tolerance
                 (length (normalize user) `max` length (normalize correct))
                 dist)
          ↔ within_tolerance
              (length (normalize user) `max` length (normalize correct))
              (lev (normalize user) (normalize correct))) as ->.
  { split.
    - intros (dist & Hchain & Hleast & Htol).
      by rewrite <- (proj1 (least_edits_lev _ _ dist) (conj Hchain Hleast)).
    - intros Htol. exists (lev (normalize user) (normalize correct)).
      split; [apply edits_lev|]. split; [|done].
      intros n. apply lev_le_edits. }
  unfold within_tolerance.
  set (len := length (normalize user) `max` length (normalize correct)).
  case_bool_decide as Heq.
  - rewrite Heq, lev_refl. split; [intros _|done]. lia.
  - destruct (Nat.leb_spec len 3); [|destruct (Nat.leb_spec len 7)].
    + rewrite Nat.eqb_eq. lia.
    + rewrite Nat.leb_le. lia.
    + rewrite Nat.leb_le. lia.
Qed.

Lemma isFuzzyMatch_tiers_witness :
  normalize (str "Schneeman") ≠ []
  ∧ normalize (str "Schneemann") ≠ []
  ∧ isFuzzyMatch (str "Schneeman") (str "Schneemann") = true.
Proof.
  assert (normalize (str "Schneeman") ≠ []) as H1 by (vm_compute; discriminate).
  assert (normalize (str "Schneemann") ≠ []) as H2 by (vm_compute; discriminate).
  split; [exact H1|]. split; [exact H2|].
  apply (proj2 (isFuzzyMatch_tiers (str "Schneeman") (str "Schneemann") H1 H2)).
  exists 1. split; [|split].
  - apply edits_one.
    apply (edit1_insert (normalize (str "Schneeman")) "n"%char []).
  - intros n Hn. apply lev_le_edits in Hn. vm_compute in Hn. exact Hn.
  - right. right. vm_compute. split; repeat constructor.
Defined.

(** The tier boundaries of the specification, evaluated. *)
Example tier_boundaries :
  isFuzzyMatch (str "Elf") (str "Alf") = false
  ∧ isFuzzyMatch (str "Elch") (str "Elcb") = true
  ∧ isFuzzyMatch (str "Nikolaus") (str "Nikolxxs") = true
  ∧ isFuzzyMatch (str "Nikolaus") (str "Nikxxxus") = false.
Proof. vm_compute. done. Qed.

Example scenarios :
  isFuzzyMatch (str "Rentier") (str "rentier") = true
  ∧ isFuzzyMatch (str "Schneeman") (str "Schneemann") = true
  ∧ isFuzzyMatch (str "Elch") (str "Elf") = false
  ∧ isFuzzyMatch (str "") (str "Ja") = false.
Proof. vm_compute. done. Qed.

(** C3, counterexample: a blank submission matches a candidate made of
    punctuation only; both normalize to the empty string. *)
Lemma isFuzzyMatch_blank_inputs :
  normalize (str " ") = []
  ∧ normalize (str "?") = []
  ∧ isFuzzyMatch (str " ") (str "?") = true.
Proof. vm_compute. done. Qed.

(** C3, amended: isFuzzyMatch returns false when a raw input is empty and
    when exactly one of the normalized forms is empty; two non-empty inputs
    that both normalize to the empty string match. *)
Theorem isFuzzyMatch_empty user correct :
  (user = [] ∨ correct = [] → isFuzzyMatch user correct = false)
  ∧ (normalize user = [] → normalize correct ≠ [] →
     isFuzzyMatch user correct = false)
  ∧ (normalize user ≠ [] → normalize correct = [] →
     isFuzzyMatch user correct = false)
  ∧ (user ≠ [] → correct ≠ [] →
     normalize user = [] → normalize correct = [] →
     isFuzzyMatch user correct = true).
Proof.
  assert (∀ x y, normalize x = [] → normalize y ≠ [] →
                 isFuzzyMatch x y = false ∧ isFuzzyMatch y x = false) as Hone.
  { intros x y Hx Hy.
    destruct (decide (x = [])) as [->|Hxne].
    { unfold isFuzzyMatch. simpl. by rewrite orb_true_r. }
    pose proof (normalize_nil_inv _ Hy) as Hyne.
    rewrite !isFuzzyMatch_nonempty by done. rewrite Hx.
    rewrite lev_nil_l, lev_nil_r. simpl length. rewrite Nat.max_0_r.
    rewrite !bool_decide_eq_false_2 by congruence.
    assert (length (normalize y) ≠ 0) by by destruct (normalize y).
    simpl Nat.max.
    destruct (Nat.leb_spec (length (normalize y)) 3);
      [|destruct (Nat.leb_spec (length (normalize y)) 7)].
    - by rewrite (proj2 (Nat.eqb_neq _ _)).
    - by rewrite (proj2 (Nat.leb_gt _ _)) by lia.
    - by rewrite (proj2 (Nat.leb_gt _ _)) by lia. }
  split; [|split; [|split]].
  - unfold isFuzzyMatch. intros [-> | ->]; simpl; [done|].
    by rewrite orb_true_r.
  - intros Hu Hc. by apply (Hone user correct).
  - intros Hu Hc. by apply (Hone correct user).
  - intros Hu Hc Hnu Hnc. rewrite isFuzzyMatch_nonempty by done.
    by rewrite Hnu, Hnc.
Qed.

Lemma isFuzzyMatch_empty_witness :
  isFuzzyMatch (str "") (str "Ja") = false
  ∧ isFuzzyMatch (str "  ") (str "Ja") = false
  ∧ isFuzzyMatch (str "Nein") (str "...") = false
  ∧ isFuzzyMatch (str "  ") (str "...") = true.
Proof.
  split; [|split; [|split]].
  - apply (proj1 (isFuzzyMatch_empty (str "") (str "Ja"))). by left.
  - apply (proj1 (proj2 (isFuzzyMatch_empty (str "  ") (str "Ja"))));
      by vm_compute.
  - apply (proj1 (proj2 (proj2 (isFuzzyMatch_empty (str "Nein") (str "...")))));
      by vm_compute.
  - apply (proj2 (proj2 (proj2 (isFuzzyMatch_empty (str "  ") (str "...")))));
      by vm_compute.
Defined.

(** C10: isFuzzyMatch is symmetric in its two arguments. *)
Theorem isFuzzyMatch_symmetric x y : isFuzzyMatch x y = isFuzzyMatch y x.
Proof.
  unfold isFuzzyMatch. rewrite (orb_comm (falsy x)).
  destruct (falsy y || falsy x); [done|].
  rewrite !getLevenshteinDistance_lev.
  rewrite (lev_sym (normalize y)), (Nat.max_comm (length (normalize y))).
  case_bool_decide as Hxy.
  - by rewrite bool_decide_eq_true_2.
  - by rewrite bool_decide_eq_false_2 by congruence.
Qed.
End matcher.

(** ** The claims about the normalizer *)

Section normalizer_claims.
Implicit Types s : list ascii.










(** The normalized form of an input that only begins with a stripped
    character has no leading whitespace. *)
Example normalize_minus_5 : normalize (str "-5") = str "5".
Proof. reflexivity. Qed.



End normalizer_claims.

(** ** The grading branch of handleSubmit *)

Section grading.
Implicit Types riddle : Riddle.
Implicit Types userAnswer : list ascii.

Lemma isCorrect_text_iff riddle userAnswer :
  type riddle = text →
  (isCorrect riddle userAnswer = true ↔
   isFuzzyMatch userAnswer (correctAnswer riddle) = true
   ∨ ∃ alt, alt ∈ alternates (acceptedAnswers riddle)
            ∧ isFuzzyMatch userAnswer alt = true).
Proof.
  intros Htype. unfold isCorrect. rewrite Htype.
  destruct (isFuzzyMatch userAnswer (correctAnswer riddle)).
  { split; auto. }
  assert (∀ answers : list (list ascii),
            existsb (isFuzzyMatch userAnswer) answers = true ↔
            ∃ alt, alt ∈ answers ∧ isFuzzyMatch userAnswer alt = true)
    as Hsome.
  { intros answers. rewrite existsb_exists.
    by setoid_rewrite list_elem_of_In. }
  destruct (acceptedAnswers riddle) as [| | |answers]; simpl.
  1-3: split; [done|]; intros [?|(alt & Halt & _)]; [done|];
       by apply not_elem_of_nil in Halt.
  destruct answers as [|alt0 answers].
  - simpl. split; [done|]. intros [?|(alt & Halt & _)]; [done|].
    by apply not_elem_of_nil in Halt.
  - change (0 <? length (alt0 :: answers)) with true. cbv iota.
    rewrite Hsome. split; [auto|]. by intros [?|?].
Qed.

(** C6: for a text riddle the verdict is true exactly when the submission
    matches the canonical answer or one of the alternates, where an absent
    or null collection (or one that is no array) has no alternates; the
    verdict does not depend on the order of the alternates. *)
Theorem isCorrect_text riddle userAnswer :
  type riddle = text →
  (isCorrect riddle userAnswer = true ↔
   isFuzzyMatch userAnswer (correctAnswer riddle) = true
   ∨ ∃ alt, alt ∈ alternates (acceptedAnswers riddle)
            ∧ isFuzzyMatch userAnswer alt = true)
  ∧ (∀ riddle',
       type riddle' = text →
       correctAnswer riddle' = correctAnswer riddle →
       alternates (acceptedAnswers riddle')
         ≡ₚ alternates (acceptedAnswers riddle) →
       isCorrect riddle' userAnswer = isCorrect riddle userAnswer).
Proof.
  intros Htype. split; [by apply isCorrect_text_iff|].
  intros riddle' Htype' Hcanon Hperm.
  apply Bool.eq_iff_eq_true.
  rewrite !isCorrect_text_iff by done. rewrite Hcanon.
  by setoid_rewrite Hperm.
Qed.

Lemma isCorrect_text_witness :
  type nikolaus_riddle = text
  ∧ isCorrect nikolaus_riddle (str "Nikolaus") = true.
Proof.
  split; [reflexivity|].
  apply (proj1 (isCorrect_text nikolaus_riddle (str "Nikolaus") eq_refl)).
  right. exists (str "Nikolaus"). split; [by constructor|].
  vm_compute. reflexivity.
Defined.

(** C7: for a choice riddle the verdict is true exactly when the submission
    is the canonical answer, character for character; any other submission
    is judged incorrect, whatever isFuzzyMatch says about it. *)
Theorem isCorrect_choice riddle userAnswer :
  type riddle = choice →
  (isCorrect riddle userAnswer = true ↔ userAnswer = correctAnswer riddle)
  ∧ (userAnswer ≠ correctAnswer riddle → isCorrect riddle userAnswer = false).
Proof.
  intros Htype. unfold isCorrect. rewrite Htype. split.
  - apply bool_decide_eq_true.
  - apply bool_decide_eq_false_2.
Qed.

Lemma isCorrect_choice_witness :
  type choice_riddle = choice
  ∧ isFuzzyMatch (str " a.") (correctAnswer choice_riddle) = true
  ∧ isCorrect choice_riddle (str " a.") = false.
Proof.
  split; [reflexivity|]. split; [vm_compute; reflexivity|].
  apply (proj2 (isCorrect_choice choice_riddle (str " a.") eq_refl)).
  vm_compute. discriminate.
Defined.

(** The scenarios of the specification. *)
Example grading_scenarios :
  isCorrect nikolaus_riddle (str "Nikolaus") = true
  ∧ isCorrect choice_riddle (str "B") = false
  ∧ isCorrect choice_riddle (str "a") = false
  ∧ isCorrect choice_riddle (str "A") = true.
Proof. vm_compute. done. Qed.

Lemma handleSubmit_feedback riddle userAnswer :
  handleSubmit None userAnswer = None
  ∧ (handleSubmit (Some riddle) userAnswer = Some ShowSuccess ↔
     isCorrect riddle userAnswer = true)
  ∧ (handleSubmit (Some riddle) userAnswer = Some ShowError ↔
     isCorrect riddle userAnswer = false).
Proof. simpl. destruct (isCorrect riddle userAnswer); naive_solver. Qed.
End grading.

(** * Further properties of the matcher

    ** Bounds on the distance *)

Section distance_bounds.
Context {char : Type} `{EqDecision char}.
Implicit Types a b x y : list char.

Lemma edits_0_inv x y : edits 0 x y → x = y.
Proof. by inversion 1. Qed.

Lemma lev_0_inv x y : lev x y = 0 → x = y.
Proof. intros Hxy. apply edits_0_inv. rewrite <- Hxy. apply edits_lev. Qed.

Lemma lev_le_max x y : lev x y ≤ length x `max` length y.
Proof.
  revert y. induction x as [|c x IH]; intros y; [simpl; lia|].
  destruct y as [|d y]; [simpl; lia|].
  rewrite lev_cons_cons. specialize (IH y).
  pose proof (diag_cost_le c d). simpl. lia.
Qed.

Lemma lev_length_gap x y :
  length x ≤ lev x y + length y ∧ length y ≤ lev x y + length x.
Proof.
  pose proof (lev_triangle x y []) as H1.
  pose proof (lev_triangle y x []) as H2.
  rewrite !lev_nil_r, (lev_sym y x) in *. lia.
Qed.

(** X1: the distance of two strings is 0 exactly when they are equal. *)
Theorem getLevenshteinDistance_zero_iff a b :
  getLevenshteinDistance a b = Some 0 ↔ a = b.
Proof.
  rewrite getLevenshteinDistance_lev. split.
  - intros [= Hd]. by apply lev_0_inv.
  - intros ->. by rewrite lev_refl.
Qed.

(** X2: the distance is at least the difference of the two lengths and at
    most the longer of the two lengths. *)
Theorem getLevenshteinDistance_bounds a b :
  ∃ dist,
    getLevenshteinDistance a b = Some dist
    ∧ length a - length b ≤ dist
    ∧ length b - length a ≤ dist
    ∧ dist ≤ length a `max` length b.
Proof.
  exists (lev a b). rewrite getLevenshteinDistance_lev.
  pose proof (lev_length_gap a b). pose proof (lev_le_max a b).
  repeat split; lia.
Qed.

(** X3: the three loops (which the source runs for two non-empty strings)
    run to the end, the matrix they leave has one row per prefix of [b],
    and its cell [i][j] holds the distance between the first [j] characters
    of [a] and the first [i] characters of [b]. *)
Theorem matrix_cells_are_prefix_distances a b :
  ∃ matrix,
    (m ← init_first_column b []; m ← init_first_row a m; fill a b m)
    = Some matrix
    ∧ length matrix = S (length b)
    ∧ ∀ i j, i ≤ length b → j ≤ length a →
        ∃ dist,
          cell matrix i j = Some dist
          ∧ getLevenshteinDistance (take j a) (take i b) = Some dist.
Proof.
  exists (matrix_at a b (length b) (S (length a))).
  rewrite init_first_column_spec. cbn [mbind option_bind].
  rewrite init_first_row_spec. cbn [mbind option_bind].
  split; [apply fill_spec|]. split.
  - unfold matrix_at, rows_todo.
    rewrite length_app, length_rows_done. simpl.
    rewrite length_fmap, length_seq. lia.
  - intros i j Hi Hj. exists (grid a b i j). split.
    + destruct (decide (i = length b)) as [->|].
      * apply cell_current. lia.
      * apply cell_done; lia.
    + rewrite getLevenshteinDistance_lev. unfold grid.
      by rewrite lev_rev, lev_sym.
Qed.
End distance_bounds.

(** ** What isFuzzyMatch accepts and what it never accepts *)

Section matcher_extras.
Implicit Types user correct s : list ascii.

Lemma isFuzzyMatch_true_nonempty user correct :
  isFuzzyMatch user correct = true → user ≠ [] ∧ correct ≠ [].
Proof.
  unfold isFuzzyMatch. destruct user, correct; simpl; try done.
Qed.

Lemma isFuzzyMatch_same_normal_form user correct :
  user ≠ [] → correct ≠ [] → normalize user = normalize correct →
  isFuzzyMatch user correct = true.
Proof.
  intros Hu Hc Heq. rewrite isFuzzyMatch_nonempty by done.
  by rewrite bool_decide_eq_true_2.
Qed.

(** X4: two inputs never match when the lengths of their normalized forms
    differ by more than 2, nor when they differ by more than 1 and neither
    form is longer than 7. *)
Theorem isFuzzyMatch_length_gap user correct :
  isFuzzyMatch user correct = true →
  (length (normalize user) - length (normalize correct))
    + (length (normalize correct) - length (normalize user)) ≤ 2
  ∧ (length (normalize user) `max` length (normalize correct) ≤ 7 →
     (length (normalize user) - length (normalize correct))
       + (length (normalize correct) - length (normalize user)) ≤ 1).
Proof.
  intros Hm. destruct (isFuzzyMatch_true_nonempty _ _ Hm) as [Hu Hc].
  rewrite isFuzzyMatch_nonempty in Hm by done.
  case_bool_decide as Heq; [rewrite Heq; lia|].
  pose proof (lev_length_gap (normalize user) (normalize correct)) as Hgap.
  set (len := length (normalize user) `max` length (normalize correct)) in *.
  destruct (Nat.leb_spec len 3); [|destruct (Nat.leb_spec len 7)].
  - apply Nat.eqb_eq in Hm. lia.
  - apply Nat.leb_le in Hm. lia.
  - apply Nat.leb_le in Hm. lia.
Qed.

Lemma isFuzzyMatch_length_gap_witness :
  (length (normalize (str "Schneeman")) - length (normalize (str "Schneemann")))
    + (length (normalize (str "Schneemann"))
         - length (normalize (str "Schneeman"))) ≤ 2.
Proof.
  apply (isFuzzyMatch_length_gap (str "Schneeman") (str "Schneemann")).
  vm_compute. reflexivity.
Defined.

(** X5: when neither normalized form is longer than 3, two non-empty
    inputs match exactly when their normalized forms are equal. *)
Theorem isFuzzyMatch_short_exact user correct :
  user ≠ [] → correct ≠ [] →
  length (normalize user) `max` length (normalize correct) ≤ 3 →
  (isFuzzyMatch user correct = true ↔ normalize user = normalize correct).
Proof.
  intros Hu Hc Hlen. rewrite isFuzzyMatch_nonempty by done.
  case_bool_decide as Heq; [done|].
  rewrite (proj2 (Nat.leb_le _ _)) by done.
  rewrite Nat.eqb_eq. split; [apply lev_0_inv|done].
Qed.

Lemma isFuzzyMatch_short_exact_witness :
  isFuzzyMatch (str "Elf") (str "Alf") = true ↔
  normalize (str "Elf") = normalize (str "Alf").
Proof.
  apply (isFuzzyMatch_short_exact (str "Elf") (str "Alf"));
    vm_compute; (discriminate || lia).
Defined.

(** X6: a non-empty input matches itself, and the verdict depends on a
    non-empty input only through its normalized form: two non-empty
    submissions with the same normalized form get the same verdict against
    every candidate. *)
Theorem isFuzzyMatch_normal_form user user' correct :
  (user ≠ [] → isFuzzyMatch user user = true)
  ∧ (user ≠ [] → user' ≠ [] → normalize user = normalize user' →
     isFuzzyMatch user correct = isFuzzyMatch user' correct).
Proof.
  split.
  - intros Hu. by apply isFuzzyMatch_same_normal_form.
  - intros Hu Hu' Heq. destruct correct as [|c correct].
    + unfold isFuzzyMatch. simpl. by rewrite !orb_true_r.
    + rewrite !isFuzzyMatch_nonempty by done. by rewrite Heq.
Qed.

Lemma isFuzzyMatch_normal_form_witness :
  isFuzzyMatch (str "Rentier") (str "Rentier") = true
  ∧ isFuzzyMatch (str " RENTIER!") (str "Rentiere")
    = isFuzzyMatch (str "rentier") (str "Rentiere").
Proof.
  split.
  - apply (proj1 (isFuzzyMatch_normal_form (str "Rentier") [] [])).
    vm_compute. discriminate.
  - apply (proj2 (isFuzzyMatch_normal_form
                    (str " RENTIER!") (str "rentier") (str "Rentiere")));
      vm_compute; (discriminate || reflexivity).
Defined.
End matcher_extras.

(** * The riddle modal *)

Section modal.
Implicit Types st : ModalState.
Implicit Types r : Riddle.

Lemma form_rendered_inv (o : option Riddle) isLoading st :
  form_rendered o isLoading st = true →
  ∃ r, o = Some r ∧ isLoading = false
       ∧ showSuccess st = false ∧ forceShowSolution st = false.
Proof.
  unfold form_rendered, RiddleModal_render.
  destruct o as [r|], isLoading; simpl; try done.
  destruct (showSuccess st); [done|].
  destruct (forceShowSolution st); [done|]. eauto.
Qed.

Lemma hint_button_enabled_inv (o : option Riddle) isLoading st :
  hint_button_enabled o isLoading st = true →
  form_rendered o isLoading st = true.
Proof.
  unfold hint_button_enabled, form_rendered.
  by destruct (RiddleModal_render o isLoading st) as [| | | ? ? ? []|].
Qed.

Lemma modal_step_invariant st st' :
  modal_step st st' → hint_invariant st → hint_invariant st'.
Proof.
  unfold hint_invariant.
  intros [st0|st0|o l st0 v _|o l st0 Hen|o l st0 _] [Hle Hforce].
  - simpl. split; [lia|]. split; [done|lia].
  - done.
  - done.
  - apply hint_button_enabled_inv, form_rendered_inv in Hen
      as (_ & _ & _ & _ & Hf).
    assert (hintClicks st0 ≠ 4) by (intros H4; apply Hforce in H4; congruence).
    unfold handleHintClick. cbn [hintClicks forceShowSolution].
    rewrite Hf. destruct (Nat.leb_spec 4 (hintClicks st0 + 1)).
    + split; [lia|]. split; [lia|done].
    + split; [lia|]. split; [done|lia].
  - unfold handleSubmit_state.
    destruct (handleSubmit o (userAnswer st0)) as [[]|]; done.
Qed.

Lemma modal_reachable_invariant st : modal_reachable st → hint_invariant st.
Proof.
  intros Hreach. unfold modal_reachable in Hreach.
  revert st Hreach. apply (rtc_ind_r (R := modal_step) hint_invariant).
  - split; [simpl; lia|]. split; [done|simpl; lia].
  - intros st1 st2 _ Hstep IH. by eapply modal_step_invariant.
Qed.

(** X7: in every state that the modal reaches from its initial state by
    day changes, error timeouts and user actions on the rendered form, the
    hint button has been clicked at most four times, and the solution is
    forced exactly when it has been clicked four times. *)
Theorem modal_hint_clicks st :
  modal_reachable st →
  hintClicks st ≤ 4 ∧ (forceShowSolution st = true ↔ hintClicks st = 4).
Proof. apply modal_reachable_invariant. Qed.

Lemma modal_reachable_hint (o : option Riddle) isLoading st :
  modal_reachable st → hint_button_enabled o isLoading st = true →
  modal_reachable (handleHintClick st).
Proof. intros Hst Hen. eapply rtc_r; [done|]. by econstructor. Qed.

Lemma modal_hint_clicks_witness :
  hintClicks (handleHintClick (handleHintClick initialModalState)) ≤ 4
  ∧ (forceShowSolution (handleHintClick (handleHintClick initialModalState))
     = true ↔
     hintClicks (handleHintClick (handleHintClick initialModalState)) = 4).
Proof.
  apply modal_hint_clicks.
  apply (modal_reachable_hint (Some nikolaus_riddle) false); [|done].
  apply (modal_reachable_hint (Some nikolaus_riddle) false); [|done].
  apply rtc_refl.
Defined.



(** X9: the modal never renders its error message: without a riddle it
    renders nothing unless it is loading, and it renders nothing only
    then. *)
Theorem modal_error_message_unreachable (o : option Riddle) isLoading st :
  is_ErrorMessage (RiddleModal_render o isLoading st) = false
  ∧ (RiddleModal_render o isLoading st = RenderNothing ↔
     o = None ∧ isLoading = false).
Proof.
  unfold RiddleModal_render.
  destruct o as [r|], isLoading; simpl.
  - split; [done|]. split; [done|]. by intros [? _].
  - destruct (showSuccess st); (split; [done|]);
      (split; [done|]); by intros [? _].
  - split; [done|]. split; [done|]. by intros [_ ?].
  - done.
Qed.

(** X10: when the modal offers radio buttons, the riddle is a choice riddle
    and the buttons are its options, in order and at least one; a button
    is checked exactly when its option is the current answer; and some
    button leads to a correct submission exactly when the canonical answer
    is literally one of the options. *)
Theorem radio_group_solvable r st choices :
  inputWidget r st = RadioGroup choices →
  type r = choice
  ∧ options r = Some choices.*1
  ∧ choices ≠ []
  ∧ (∀ o checked, (o, checked) ∈ choices →
       (checked = true ↔ userAnswer st = o))
  ∧ ((∃ o, o ∈ choices.*1 ∧ isCorrect r o = true) ↔
     correctAnswer r ∈ choices.*1).
Proof.
  unfold inputWidget. intros Hw.
  destruct (type r) eqn:Htype; [by destruct (options r)|].
  destruct (options r) as [[|o os]|] eqn:Hopts; try done.
  assert (choices = (λ option, (option, bool_decide (userAnswer st = option)))
                      <$> o :: os) as -> by by injection Hw.
  assert (((λ option, (option, bool_decide (userAnswer st = option)))
             <$> o :: os).*1 = o :: os) as Hfst.
  { rewrite <- list_fmap_compose. apply list_fmap_id. }
  rewrite Hfst. split; [done|]. split; [done|]. split; [done|]. split.
  - intros o' checked [o'' [[= -> ->] _]]%list_elem_of_fmap.
    apply bool_decide_eq_true.
  - unfold isCorrect. rewrite Htype. split.
    + intros (o' & Ho' & Heq%bool_decide_eq_true). by subst.
    + intros Hin. exists (correctAnswer r). split; [done|].
      by apply bool_decide_eq_true.
Qed.

Lemma radio_group_solvable_witness :
  (∃ o, o ∈ [str "A"; str "B"; str "C"] ∧ isCorrect choice_riddle o = true) ↔
  correctAnswer choice_riddle ∈ [str "A"; str "B"; str "C"].
Proof.
  apply (radio_group_solvable choice_riddle initialModalState
           [(str "A", false); (str "B", false); (str "C", false)]).
  reflexivity.
Defined.

Lemma modal_step_on_step (o : option Riddle) isLoading st st' :
  modal_step_on o isLoading st st' → modal_step st st'.
Proof. intros []; by econstructor. Qed.

(** X11: while the modal is rendered with a given riddle prop, one event
    turns the success flag on only by a submission of an answer that
    handleSubmit grades correct for that very riddle, and the event changes
    nothing else; once the flag is on, the only events left are the day
    change and the error timeout. *)
Theorem modal_success_by_correct_answer (o : option Riddle) isLoading st st' :
  modal_step_on o isLoading st st' →
  (showSuccess st = false → showSuccess st' = true →
   ∃ r, o = Some r
        ∧ isCorrect r (userAnswer st) = true
        ∧ st' = setShowSuccess true st)
  ∧ (showSuccess st = true →
     st' = initialModalState ∨ st' = setShowError false st).
Proof.
  intros [st0|st0|st0 v Hform|st0 Hen|st0 Hform].
  - split; [done|auto].
  - split; [simpl; congruence|auto].
  - apply form_rendered_inv in Hform as (_ & _ & _ & Hs & _).
    split; [simpl; congruence|congruence].
  - apply hint_button_enabled_inv, form_rendered_inv in Hen
      as (_ & _ & _ & Hs & _).
    split; [simpl; congruence|congruence].
  - apply form_rendered_inv in Hform as (r & -> & _ & Hs & _).
    split; [|congruence]. unfold handleSubmit_state. simpl.
    destruct (isCorrect r (userAnswer st0)) eqn:Hcorrect; [by eauto|].
    simpl. congruence.
Qed.

Lemma modal_success_by_correct_answer_witness :
  ∃ r,
    Some nikolaus_riddle = Some r
    ∧ isCorrect r
        (userAnswer (setUserAnswer (str "Nikolaus") initialModalState))
      = true
    ∧ handleSubmit_state (Some nikolaus_riddle)
        (setUserAnswer (str "Nikolaus") initialModalState)
      = setShowSuccess true (setUserAnswer (str "Nikolaus") initialModalState).
Proof.
  apply (modal_success_by_correct_answer (Some nikolaus_riddle) false
           (setUserAnswer (str "Nikolaus") initialModalState)
           (handleSubmit_state (Some nikolaus_riddle)
              (setUserAnswer (str "Nikolaus") initialModalState))).
  - by apply on_submit.
  - reflexivity.
  - vm_compute. reflexivity.
Defined.
End modal.

(** * The door grid *)

Section door_grid.
Implicit Types date : JsDate.
Implicit Types cs : gmap nat DoorState.

Lemma days_seq : days = seq 6 19.
Proof. reflexivity. Qed.

Lemma doorButton_enabled date cs d :
  door_disabled (doorButton date cs d) = false ↔
  (getMonth date = 11 ∧ d ≤ getDate date)
  ∨ isSolved (doorState cs d) = Some true.
Proof.
  unfold doorButton, canOpen, truthy. simpl.
  destruct (isSolved (doorState cs d)) as [[]|]; simpl;
    destruct (Nat.eqb_spec (getMonth date) 11);
    destruct (Nat.leb_spec d (getDate date)); simpl;
    split; try done; try (intros _; by auto);
    intros [[? ?]|?]; try done; lia.
Qed.

(** X12: the grid shows one door for each of the days 6 to 24, in this
    order.  A door is enabled exactly when it is December and the day of
    the month has reached the door, or the door is solved; it is disabled
    exactly when it shows the lock icon, and exactly when it has the locked
    style. *)
Theorem DoorGrid_doors date cs :
  door_day <$> DoorGrid date cs = seq 6 19
  ∧ Forall (λ button,
      (door_disabled button = false ↔
       (getMonth date = 11 ∧ door_day button ≤ getDate date)
       ∨ isSolved (doorState cs (door_day button)) = Some true)
      ∧ (door_disabled button = true ↔ door_icon button = LockIcon)
      ∧ (door_disabled button = true ↔ door_style button = LockedStyle))
      (DoorGrid date cs).
Proof.
  split.
  - unfold DoorGrid. rewrite <- list_fmap_compose, <- days_seq.
    apply list_fmap_id.
  - unfold DoorGrid. apply Forall_fmap, Forall_forall. intros d _.
    split; [apply doorButton_enabled|].
    unfold doorButton, truthy. simpl.
    destruct (isSolved (doorState cs d)) as [[]|], (canOpen date d); by simpl.
Qed.

(** X13: as December goes on, doors only open: a door that is enabled on
    one day of December is enabled on every later day of December, and
    from the 24th on every door of the grid is enabled.  Outside December a
    door of the grid is enabled exactly when it is solved. *)
Theorem DoorGrid_december date date' cs d :
  (getMonth date = 11 → getMonth date' = 11 →
   getDate date ≤ getDate date' →
   door_disabled (doorButton date cs d) = false →
   door_disabled (doorButton date' cs d) = false)
  ∧ (getMonth date = 11 → 24 ≤ getDate date →
     Forall (λ button, door_disabled button = false) (DoorGrid date cs))
  ∧ (getMonth date ≠ 11 →
     (door_disabled (doorButton date cs d) = false ↔
      isSolved (doorState cs d) = Some true)).
Proof.
  split; [|split].
  - intros Hm Hm' Hle. rewrite !doorButton_enabled. intros [[_ Hd]|Hs].
    + left. split; [done|lia].
    + by right.
  - intros Hm Hd. unfold DoorGrid, days.
    apply Forall_fmap, Forall_fmap, Forall_forall. intros i Hi.
    apply elem_of_seq in Hi. apply doorButton_enabled. left.
    split; [done|lia].
  - intros Hm. rewrite doorButton_enabled. split; [|by auto].
    by intros [[? _]|?].
Qed.

Lemma DoorGrid_december_witness :
  door_disabled
    (doorButton {| getMonth := 11; getDate := 12 |} ∅ 10) = false
  ∧ Forall (λ button, door_disabled button = false)
      (DoorGrid {| getMonth := 11; getDate := 24 |} ∅)
  ∧ (door_disabled
       (doorButton {| getMonth := 0; getDate := 10 |} ∅ 10) = false ↔
     isSolved (doorState ∅ 10) = Some true).
Proof.
  split; [|split].
  - apply (proj1 (DoorGrid_december
                    {| getMonth := 11; getDate := 10 |}
                    {| getMonth := 11; getDate := 12 |} ∅ 10));
      (reflexivity || simpl; lia).
  - apply (proj1 (proj2 (DoorGrid_december
                           {| getMonth := 11; getDate := 24 |}
                           {| getMonth := 11; getDate := 24 |} ∅ 10)));
      (reflexivity || simpl; lia).
  - apply (proj2 (proj2 (DoorGrid_december
                           {| getMonth := 0; getDate := 10 |}
                           {| getMonth := 0; getDate := 10 |} ∅ 10))).
    simpl. lia.
Defined.
End door_grid.

(** * The application: doors, riddles and what is stored *)

Section application.
Implicit Types st : AppState.
Implicit Types cs : gmap nat DoorState.
Implicit Types r : Riddle.

Lemma doorState_insert cs d door :
  doorState (<[d := door]> cs) d = door.
Proof. unfold doorState. by rewrite lookup_insert_eq. Qed.


(** X14: handleRiddleSolved, called with the day that its callback
    captured, does nothing and starts no timer when that day is null.  For
    a captured day [d] it starts the closing timer and, in whatever state
    the application is at that moment, marks door [d] solved and keeps its
    riddle, leaves every other door, the selected day and the riddle on
    screen as they are, and doing it twice is the same as doing it once;
    from then on the grid shows door [d] enabled with the check icon
    whatever the date.  The closing timer clears the selected day and the
    riddle on screen and leaves the calendar as it is. *)
Theorem handleRiddleSolved_marks_selected st d :
  handleRiddleSolved None st = (st, false)
  ∧ (handleRiddleSolved (Some d) st).2 = true
  ∧ isSolved
      (doorState (calendarState (handleRiddleSolved (Some d) st).1) d)
    = Some true
  ∧ riddle (doorState (calendarState (handleRiddleSolved (Some d) st).1) d)
    = riddle (doorState (calendarState st) d)
  ∧ (∀ k, k ≠ d →
       calendarState (handleRiddleSolved (Some d) st).1 !! k
       = calendarState st !! k)
  ∧ (∀ date,
       door_disabled
         (doorButton date (calendarState (handleRiddleSolved (Some d) st).1) d)
       = false
       ∧ door_icon
           (doorButton date
              (calendarState (handleRiddleSolved (Some d) st).1) d)
         = CheckIcon)
  ∧ selectedDay (handleRiddleSolved (Some d) st).1 = selectedDay st
  ∧ currentRiddle (handleRiddleSolved (Some d) st).1 = currentRiddle st
  ∧ (handleRiddleSolved (Some d) (handleRiddleSolved (Some d) st).1).1
    = (handleRiddleSolved (Some d) st).1
  ∧ selectedDay (handleRiddleSolved_timeout st) = None
  ∧ currentRiddle (handleRiddleSolved_timeout st) = None
  ∧ calendarState (handleRiddleSolved_timeout st) = calendarState st.
Proof.
  unfold handleRiddleSolved. split; [done|]. split; [done|].
  cbn [fst calendarState selectedDay currentRiddle].
  rewrite doorState_insert. cbn [solvedDoor isSolved riddle].
  split; [done|]. split.
  { unfold doorState. by destruct (calendarState st !! d). }
  split; [intros k Hk; by rewrite lookup_insert_ne|].
  split.
  { intros date. unfold doorButton. rewrite doorState_insert.
    cbn [solvedDoor isSolved door_disabled door_icon truthy default].
    by rewrite andb_false_r. }
  split; [done|]. split; [done|]. split; [|done].
  f_equal. rewrite lookup_insert_eq, insert_insert_eq.
  cbn [mbind option_bind solvedDoor isOpen riddle]. done.
Qed.

Lemma handleRiddleSolved_marks_selected_witness :
  isSolved
    (doorState
       (calendarState
          (handleRiddleSolved (Some 7)
             {| currentDate := {| getMonth := 11; getDate := 8 |};
                calendarState :=
                  {[ 7 := {| isOpen := Some true; isSolved := None;
                             riddle := Some rentier_riddle |} ]};
                selectedDay := None;
                currentRiddle := None;
                loadingRiddle := false;
                showDebug := false |}).1) 7)
  = Some true
  ∧ calendarState
      (handleRiddleSolved (Some 7)
         {| currentDate := {| getMonth := 11; getDate := 8 |};
            calendarState :=
              {[ 7 := {| isOpen := Some true; isSolved := None;
                         riddle := Some rentier_riddle |} ]};
            selectedDay := None;
            currentRiddle := None;
            loadingRiddle := false;
            showDebug := false |}).1 !! 8
    = None.
Proof.
  pose proof (handleRiddleSolved_marks_selected
                {| currentDate := {| getMonth := 11; getDate := 8 |};
                   calendarState :=
                     {[ 7 := {| isOpen := Some true; isSolved := None;
                                riddle := Some rentier_riddle |} ]};
                   selectedDay := None;
                   currentRiddle := None;
                   loadingRiddle := false;
                   showDebug := false |} 7)
    as (_ & _ & Hsolved & _ & Hothers & _).
  split; [exact Hsolved|].
  rewrite (Hothers 8) by lia. reflexivity.
Defined.




End application.

Section fetched_riddles.
Implicit Types st : AppState.
Implicit Types cs : gmap nat DoorState.
Implicit Types r : Riddle.

Lemma falsy_or_default (s fallback : list ascii) :
  fallback ≠ [] → (if falsy s then fallback else s) ≠ [].
Proof. by destruct s. Qed.

Lemma falsy_or_default_id (s fallback : list ascii) :
  s ≠ [] → (if falsy s then fallback else s) = s.
Proof. by destruct s. Qed.

Lemma validateRiddle_nonempty r :
  question (validateRiddle r) ≠ []
  ∧ correctAnswer (validateRiddle r) ≠ []
  ∧ solutionExplanation (validateRiddle r) ≠ [].
Proof. repeat split; by apply falsy_or_default. Qed.

(** X16: the riddle that handleOpenDoor keeps of a fetched one has a
    non-empty question, canonical answer and explanation, and it has an
    option array if it is a choice riddle; a riddle that already is like
    that is kept unchanged, so checking twice changes nothing more. *)
Theorem validateRiddle_valid r :
  question (validateRiddle r) ≠ []
  ∧ correctAnswer (validateRiddle r) ≠ []
  ∧ solutionExplanation (validateRiddle r) ≠ []
  ∧ (type (validateRiddle r) = choice → is_Some (options (validateRiddle r)))
  ∧ (question r ≠ [] → correctAnswer r ≠ [] → solutionExplanation r ≠ [] →
     (type r = choice → is_Some (options r)) →
     validateRiddle r = r)
  ∧ validateRiddle (validateRiddle r) = validateRiddle r.
Proof.
  assert (∀ r', question r' ≠ [] → correctAnswer r' ≠ [] →
                solutionExplanation r' ≠ [] →
                (type r' = choice → is_Some (options r')) →
                validateRiddle r' = r') as Hid.
  { intros r' Hq Hc He Ht. unfold validateRiddle.
    rewrite !falsy_or_default_id by done.
    destruct r' as [? ? [] [o|] ? ? ? ? ?]; simpl in *; try done.
    by destruct Ht. }
  assert (type (validateRiddle r) = choice →
          is_Some (options (validateRiddle r))) as Hopt.
  { simpl. destruct (type r), (options r); by eauto. }
  destruct (validateRiddle_nonempty r) as (Hq & Hc & He).
  split; [done|]. split; [done|]. split; [done|]. split; [done|].
  split; [apply Hid|]. by apply Hid.
Qed.

Lemma validateRiddle_valid_witness :
  validateRiddle rentier_riddle = rentier_riddle.
Proof.
  apply (proj1 (proj2 (proj2 (proj2 (proj2
           (validateRiddle_valid rentier_riddle))))));
    try (vm_compute; discriminate).
  intros _. by eexists.
Defined.

Lemma isCorrect_nonempty_canonical r :
  correctAnswer r ≠ [] →
  isCorrect r (correctAnswer r) = true ∧ isCorrect r [] = false.
Proof.
  intros Hc. unfold isCorrect. destruct (type r).
  - rewrite isFuzzyMatch_same_normal_form by done. split; [done|].
    change (isFuzzyMatch [] (correctAnswer r)) with false. cbv iota.
    destruct (acceptedAnswers r) as [| | |answers]; try done.
    destruct (0 <? length answers); [|done].
    induction answers as [|alt answers IH]; [done|].
    change (existsb (isFuzzyMatch []) (alt :: answers))
      with (existsb (isFuzzyMatch []) answers).
    exact IH.
  - split; [by apply bool_decide_eq_true|].
    by apply bool_decide_eq_false_2.
Qed.

(** X27: for every riddle, the empty submission is graded correct only for
    a choice riddle whose canonical answer is the empty string, and a
    non-empty canonical answer, entered literally, is graded correct. *)
Theorem isCorrect_literal_and_empty r :
  (isCorrect r [] = true ↔ type r = choice ∧ correctAnswer r = [])
  ∧ (correctAnswer r ≠ [] → isCorrect r (correctAnswer r) = true).
Proof.
  split; [|by apply isCorrect_nonempty_canonical].
  destruct (decide (correctAnswer r = [])) as [Hc|Hc].
  - unfold isCorrect. rewrite Hc. destruct (type r).
    + split; [|by intros [? _]].
      destruct (acceptedAnswers r) as [| | |answers]; try done.
      change (isFuzzyMatch [] []) with false. cbv iota.
      destruct (0 <? length answers); [|done].
      induction answers as [|alt answers IH]; [done|].
      change (existsb (isFuzzyMatch []) (alt :: answers))
        with (existsb (isFuzzyMatch []) answers).
      exact IH.
    + done.
  - destruct (isCorrect_nonempty_canonical r Hc) as [_ ->].
    split; [done|]. by intros [_ ?].
Qed.

Lemma isCorrect_literal_and_empty_witness :
  isCorrect rentier_riddle (correctAnswer rentier_riddle) = true.
Proof.
  apply (proj2 (isCorrect_literal_and_empty rentier_riddle)).
  vm_compute. discriminate.
Defined.

(** X17: a riddle that came through the checks of handleOpenDoor can be
    solved and cannot be solved by saying nothing: its canonical answer,
    entered literally, is graded correct, and the empty submission is
    graded incorrect. *)
Theorem validated_riddle_grading r :
  isCorrect (validateRiddle r) (correctAnswer (validateRiddle r)) = true
  ∧ isCorrect (validateRiddle r) [] = false.
Proof.
  apply isCorrect_nonempty_canonical.
  by destruct (validateRiddle_nonempty r) as (_ & ? & _).
Qed.


End fetched_riddles.

(** ** What the persist effect stores *)

Section persistence.
Implicit Types st : AppState.
Implicit Types cs acc : gmap nat DoorState.
Implicit Types r : Riddle.



Lemma withoutImage_idem r : withoutImage (withoutImage r) = withoutImage r.
Proof. done. Qed.






End persistence.

(** * The riddle service *)

Section service.
Implicit Types s text pre mid post : list ascii.
Implicit Types c : ascii.

Lemma categories_length : length categories = 4.
Proof. reflexivity. Qed.

Lemma categories_NoDup : NoDup categories.
Proof. apply (bool_decide_unpack _). vm_compute. exact I. Qed.

(** X21: every day gets one of the four categories; days that are four
    apart get the same one, and the next day gets a different one. *)
Theorem selectedCategory_cycle (d : nat) :
  ∃ category,
    selectedCategory d = Some category
    ∧ category ∈ categories
    ∧ selectedCategory (d + 4) = Some category
    ∧ selectedCategory (d + 1) ≠ Some category.
Proof.
  unfold selectedCategory. rewrite categories_length.
  destruct (lookup_lt_is_Some_2 categories (d mod 4)) as [category Hc].
  { rewrite categories_length. apply Nat.mod_upper_bound. lia. }
  exists category. split; [done|]. split; [by eapply list_elem_of_lookup_2|].
  split.
  - replace ((d + 4) mod 4) with (d mod 4); [done|].
    symmetry. apply (Nat.Div0.mod_add d 1 4).
  - intros Hnext.
    pose proof (NoDup_lookup _ _ _ _ categories_NoDup Hnext Hc) as Heq.
    pose proof (Nat.Div0.div_mod d 4) as Hd.
    pose proof (Nat.Div0.div_mod (d + 1) 4) as Hd1.
    lia.
Qed.

(** ** indexOf, lastIndexOf and substring *)

Lemma indexOf_from_range s c (i : Z) :
  (indexOf_from s c i = (-1)%Z ∧ c ∉ s)
  ∨ (∃ pre post,
       s = pre ++ c :: post
       ∧ (c ∉ pre)
       ∧ indexOf_from s c i = (i + Z.of_nat (length pre))%Z).
Proof.
  revert i. induction s as [|x s IH]; intros i; simpl.
  - left. split; [done|apply not_elem_of_nil].
  - destruct (Ascii.eqb_spec x c) as [->|Hne].
    + right. exists [], s. simpl. split; [done|].
      split; [apply not_elem_of_nil|lia].
    + destruct (IH (i + 1)%Z) as [[Hnone Hnin]|(pre & post & -> & Hpre & Hi)].
      * left. split; [done|]. apply not_elem_of_cons. split; [congruence|done].
      * right. exists (x :: pre), post. split; [done|]. split.
        -- apply not_elem_of_cons. split; [congruence|done].
        -- rewrite Hi. simpl length. lia.
Qed.

Lemma indexOf_from_app pre post c (i : Z) :
  c ∉ pre →
  indexOf_from (pre ++ c :: post) c i = (i + Z.of_nat (length pre))%Z.
Proof.
  revert i. induction pre as [|x pre IH]; intros i Hpre; simpl.
  - rewrite Ascii.eqb_refl. lia.
  - apply not_elem_of_cons in Hpre as [Hx Hpre].
    destruct (Ascii.eqb_spec x c) as [->|_]; [done|].
    rewrite IH by done. lia.
Qed.

Lemma indexOf_none s c : indexOf s c = (-1)%Z ↔ c ∉ s.
Proof.
  unfold indexOf.
  destruct (indexOf_from_range s c 0) as [[-> Hnin]|(pre & post & -> & Hpre & ->)].
  - done.
  - split; [lia|]. intros Hnin. exfalso. apply Hnin.
    apply elem_of_app. right. apply list_elem_of_here.
Qed.

Lemma indexOf_app pre post c :
  c ∉ pre → indexOf (pre ++ c :: post) c = Z.of_nat (length pre).
Proof. intros. unfold indexOf. by rewrite indexOf_from_app. Qed.

Lemma elem_of_rev s c : c ∈ rev s ↔ c ∈ s.
Proof. rewrite !list_elem_of_In. symmetry. apply in_rev. Qed.

Lemma lastIndexOf_none s c : lastIndexOf s c = (-1)%Z ↔ c ∉ s.
Proof.
  unfold lastIndexOf, indexOf.
  destruct (indexOf_from_range (rev s) c 0)
    as [[-> Hnin]|(pre & post & Hrev & Hpre & ->)].
  - simpl. by rewrite elem_of_rev in Hnin.
  - assert (length s = length pre + S (length post)) as Hlen.
    { rewrite <- (length_rev s), Hrev, length_app. done. }
    destruct (Z.eqb_spec (0 + Z.of_nat (length pre)) (-1)); [lia|].
    split; [lia|]. intros Hnin. exfalso. apply Hnin.
    apply elem_of_rev. rewrite Hrev.
    apply elem_of_app. right. apply list_elem_of_here.
Qed.

Lemma lastIndexOf_app pre post c :
  c ∉ post → lastIndexOf (pre ++ c :: post) c = Z.of_nat (length pre).
Proof.
  intros Hpost. unfold lastIndexOf.
  rewrite rev_app_distr. simpl. rewrite <- app_assoc. simpl.
  rewrite indexOf_app.
  - rewrite length_rev, length_app. simpl length.
    destruct (Z.eqb_spec (Z.of_nat (length post)) (-1)); lia.
  - by rewrite elem_of_rev.
Qed.

Lemma substring_middle pre mid post (i j : Z) :
  i = Z.of_nat (length pre) →
  j = Z.of_nat (length pre + length mid) →
  substring (pre ++ mid ++ post) i j = mid
  ∧ substring (pre ++ mid ++ post) j i = mid.
Proof.
  intros -> ->. unfold substring. rewrite !length_app.
  replace (Z.to_nat
             (Z.min (Z.max (Z.of_nat (length pre)) 0)
                (Z.of_nat (length pre + (length mid + length post)))))
    with (length pre) by lia.
  replace (Z.to_nat
             (Z.min (Z.max (Z.of_nat (length pre + length mid)) 0)
                (Z.of_nat (length pre + (length mid + length post)))))
    with (length pre + length mid) by lia.
  rewrite (Nat.min_l (length pre)), (Nat.max_r (length pre)) by lia.
  rewrite (Nat.min_r _ (length pre)), (Nat.max_l _ (length pre)) by lia.
  replace (length pre + length mid - length pre) with (length mid) by lia.
  by rewrite drop_app_length, take_app_length.
Qed.

(** X22: the service throws for want of a brace exactly when the text has
    no opening brace or no closing brace. *)
Theorem jsonString_none text :
  jsonString text = None ↔ "{"%char ∉ text ∨ "}"%char ∉ text.
Proof.
  unfold jsonString.
  rewrite <- (indexOf_none text "{"), <- (lastIndexOf_none text "}").
  destruct (Z.eqb_spec (indexOf text "{") (-1)),
    (Z.eqb_spec (lastIndexOf text "}") (-1)); simpl;
    split; try done; try (intros _; by auto). by intros [?|?].
Qed.

(** X23: when the first opening brace comes before the last closing brace,
    the text handed to JSON.parse runs from the one to the other, both
    included, whatever surrounds them; extracting from that text again
    gives the same text. *)
Theorem jsonString_between_braces pre mid post :
  "{"%char ∉ pre → "}"%char ∉ post →
  jsonString (pre ++ "{"%char :: mid ++ "}"%char :: post)
  = Some ("{"%char :: mid ++ ["}"%char])
  ∧ jsonString ("{"%char :: mid ++ ["}"%char])
    = Some ("{"%char :: mid ++ ["}"%char]).
Proof.
  assert (∀ pre post, "{"%char ∉ pre → "}"%char ∉ post →
            jsonString (pre ++ "{"%char :: mid ++ "}"%char :: post)
            = Some ("{"%char :: mid ++ ["}"%char])) as Hmain.
  { clear pre post. intros pre post Hpre Hpost. unfold jsonString.
    assert (indexOf (pre ++ "{"%char :: mid ++ "}"%char :: post) "{"
            = Z.of_nat (length pre)) as -> by by apply indexOf_app.
    assert (lastIndexOf (pre ++ "{"%char :: mid ++ "}"%char :: post) "}"
            = Z.of_nat (length pre + S (length mid))) as ->.
    { replace (pre ++ "{"%char :: mid ++ "}"%char :: post)
        with ((pre ++ "{"%char :: mid) ++ "}"%char :: post)
        by (by rewrite <- app_assoc).
      rewrite lastIndexOf_app by done. by rewrite length_app. }
    destruct (Z.eqb_spec (Z.of_nat (length pre)) (-1)); [lia|].
    destruct (Z.eqb_spec (Z.of_nat (length pre + S (length mid))) (-1));
      [lia|].
    simpl. f_equal.
    replace (pre ++ "{"%char :: mid ++ "}"%char :: post)
      with (pre ++ ("{"%char :: mid ++ ["}"%char]) ++ post)
      by (simpl; by rewrite <- app_assoc).
    refine (proj1 (substring_middle pre ("{"%char :: mid ++ ["}"%char]) post
                     _ _ eq_refl _)).
    simpl length. rewrite length_app. simpl length. lia. }
  intros Hpre Hpost. split; [by apply Hmain|].
  apply (Hmain [] []); apply not_elem_of_nil.
Qed.

Lemma jsonString_between_braces_witness :
  jsonString (str "Hier ist es: {a:{b:1}} Gern!") = Some (str "{a:{b:1}}").
Proof.
  assert ("{"%char ∉ str "Hier ist es: ") as Hpre
    by (apply (bool_decide_unpack _); vm_compute; exact I).
  assert ("}"%char ∉ str " Gern!") as Hpost
    by (apply (bool_decide_unpack _); vm_compute; exact I).
  exact (proj1 (jsonString_between_braces
                  (str "Hier ist es: ") (str "a:{b:1}") (str " Gern!")
                  Hpre Hpost)).
Defined.

(** X24: when every closing brace comes before the first opening brace,
    substring swaps its two indices and the text handed to JSON.parse is
    what stands between the last closing brace and the first opening
    brace, without either. *)
Theorem jsonString_braces_swapped pre mid post :
  "{"%char ∉ pre → "{"%char ∉ mid → "}"%char ∉ mid → "}"%char ∉ post →
  jsonString (pre ++ "}"%char :: mid ++ "{"%char :: post) = Some mid.
Proof.
  intros Hpre Hmid1 Hmid2 Hpost. unfold jsonString.
  assert (lastIndexOf (pre ++ "}"%char :: mid ++ "{"%char :: post) "}"
          = Z.of_nat (length pre)) as ->.
  { apply lastIndexOf_app, not_elem_of_app. split; [done|].
    by apply not_elem_of_cons. }
  assert (indexOf (pre ++ "}"%char :: mid ++ "{"%char :: post) "{"
          = Z.of_nat (length pre + S (length mid))) as ->.
  { replace (pre ++ "}"%char :: mid ++ "{"%char :: post)
      with ((pre ++ "}"%char :: mid) ++ "{"%char :: post)
      by (by rewrite <- app_assoc).
    rewrite indexOf_app; [by rewrite length_app|].
    apply not_elem_of_app. split; [done|]. by apply not_elem_of_cons. }
  destruct (Z.eqb_spec (Z.of_nat (length pre + S (length mid))) (-1)); [lia|].
  destruct (Z.eqb_spec (Z.of_nat (length pre)) (-1)); [lia|].
  simpl. f_equal.
  replace (pre ++ "}"%char :: mid ++ "{"%char :: post)
    with ((pre ++ ["}"%char]) ++ mid ++ "{"%char :: post)
    by (by rewrite <- app_assoc).
  refine (proj2 (substring_middle (pre ++ ["}"%char]) mid
                   ("{"%char :: post) _ _ _ _));
    rewrite length_app; simpl length; lia.
Qed.

Lemma jsonString_braces_swapped_witness :
  jsonString (str "a} x {b") = Some (str " x ").
Proof.
  apply (jsonString_braces_swapped (str "a") (str " x ") (str "b"));
    apply (bool_decide_unpack _); vm_compute; exact I.
Defined.

Lemma substring_prefix s (n : nat) : substring s 0 (Z.of_nat n) = take n s.
Proof.
  unfold substring.
  replace (Z.to_nat (Z.min (Z.max 0 0) (Z.of_nat (length s)))) with 0 by lia.
  replace (Z.to_nat (Z.min (Z.max (Z.of_nat n) 0) (Z.of_nat (length s))))
    with (n `min` length s) by lia.
  rewrite Nat.min_0_l, Nat.max_0_l, Nat.sub_0_r, drop_0.
  destruct (Nat.le_ge_cases n (length s)).
  - by rewrite Nat.min_l.
  - rewrite Nat.min_r by lia.
    rewrite (take_ge s (length s)), (take_ge s n) by lia. done.
Qed.

(** X25: the image prompt quotes the first 150 code units of the question,
    the whole question when it is shorter, between its fixed opening and
    closing words; so it never has more than 208 code units. *)
Theorem imagePrompt_quotes_prefix (question : list ascii) :
  imagePrompt question
  = str "Christmas anime watercolor art: " ++ take 150 question
      ++ str ". Cozy, detailed, no text."
  ∧ length (imagePrompt question) ≤ 208
  ∧ (length question ≤ 150 →
     imagePrompt question
     = str "Christmas anime watercolor art: " ++ question
         ++ str ". Cozy, detailed, no text.").
Proof.
  unfold imagePrompt.
  change (substring question 0 150)
    with (substring question 0 (Z.of_nat 150)).
  rewrite (substring_prefix question 150).
  split; [done|]. split.
  - rewrite !length_app, length_take.
    change (length (str "Christmas anime watercolor art: ")) with 32.
    change (length (str ". Cozy, detailed, no text.")) with 26.
    lia.
  - intros Hlen. by rewrite take_ge.
Qed.

Lemma imagePrompt_quotes_prefix_witness :
  imagePrompt (str "Wer bin ich?")
  = str "Christmas anime watercolor art: Wer bin ich?. Cozy, detailed, no text.".
Proof.
  apply (proj2 (proj2 (imagePrompt_quotes_prefix (str "Wer bin ich?")))).
  simpl. lia.
Defined.

Lemma extractImage_app parts part :
  extractImage (parts ++ [part])
  = match part with
    | Some (mimeType, data) =>
        Some (str "data:" ++ mimeType ++ str ";base64," ++ data)
    | None => extractImage parts
    end.
Proof. unfold extractImage. by rewrite foldl_snoc. Qed.

(** X26: the image of a riddle is taken from the last part of the response
    that carries inline data; there is no image exactly when no part does;
    an image URL is never the empty string; and for a riddle that carries
    what was extracted, the riddle panel of the modal shows exactly that
    image, or the fallback when there is none, also after the riddle has
    gone through the checks of handleOpenDoor. *)
Theorem extractImage_last_inline parts :
  (extractImage parts = None ↔ Forall (λ part, part = None) parts)
  ∧ (∀ before mimeType data after,
       parts = before ++ Some (mimeType, data) :: after →
       Forall (λ part, part = None) after →
       extractImage parts
       = Some (str "data:" ++ mimeType ++ str ";base64," ++ data))
  ∧ (∀ url, extractImage parts = Some url → falsy url = false)
  ∧ (∀ r st,
       imageUrl r = extractImage parts →
       showSuccess st = false →
       RiddleModal_render (Some r) false st
       = RiddlePanel (extractImage parts) (question r) (visibleHints r st)
           (if forceShowSolution st
            then SolutionPanel (correctAnswer r) (solutionExplanation r)
            else AnswerForm (inputWidget r st) (showError st)
                   (hintButtonText st) (forceShowSolution st)))
  ∧ (∀ r d app st,
       imageUrl r = extractImage parts →
       showSuccess st = false →
       ∃ tips body,
         RiddleModal_render
           (currentRiddle (handleOpenDoor_settled d (Some r) app))
           (loadingRiddle (handleOpenDoor_settled d (Some r) app)) st
         = RiddlePanel (extractImage parts) (question (validateRiddle r))
             tips body).
Proof.
  assert (∀ url, extractImage parts = Some url → falsy url = false)
    as Hfalsy.
  { induction parts as [|part parts IH] using rev_ind; [done|].
    intros url. rewrite extractImage_app.
    destruct part as [[mimeType data]|]; [|by apply IH].
    by intros [= <-]. }
  assert (∀ r st,
            imageUrl r = extractImage parts →
            showSuccess st = false →
            RiddleModal_render (Some r) false st
            = RiddlePanel (extractImage parts) (question r)
                (visibleHints r st)
                (if forceShowSolution st
                 then SolutionPanel (correctAnswer r) (solutionExplanation r)
                 else AnswerForm (inputWidget r st) (showError st)
                        (hintButtonText st) (forceShowSolution st)))
    as Hrender.
  { intros r st Himage Hsuccess. unfold RiddleModal_render.
    rewrite Hsuccess, Himage. cbn [bool_decide andb negb].
    rewrite bool_decide_eq_false_2 by done. cbn [andb].
    destruct (extractImage parts) as [url|] eqn:Hurl; [|done].
    by rewrite (Hfalsy url). }
  split; [|split; [|split; [done|split; [done|]]]].
  - clear Hfalsy Hrender.
    induction parts as [|part parts IH] using rev_ind; [done|].
    rewrite extractImage_app, Forall_app, Forall_singleton.
    destruct part as [[mimeType data]|].
    + split; [done|]. by intros [_ ?].
    + rewrite IH. split; [by intros ?|by intros [? _]].
  - clear Hfalsy Hrender. intros before mimeType data after -> Hafter.
    induction after as [|part after IH] using rev_ind.
    + by rewrite extractImage_app.
    + apply Forall_app in Hafter as [Hafter Hpart].
      apply Forall_inv in Hpart. simpl in Hpart. subst part.
      change (before ++ Some (mimeType, data) :: after ++ [None])
        with (before ++ (Some (mimeType, data) :: after) ++ [None]).
      rewrite app_assoc, extractImage_app. by apply IH.
  - intros r d app st Himage Hsuccess.
    cbn [handleOpenDoor_settled currentRiddle loadingRiddle].
    rewrite (Hrender (validateRiddle r) st) by done. by eexists _, _.
Qed.

Lemma extractImage_last_inline_witness :
  extractImage [None; Some (str "image/png", str "AAAA"); None]
  = Some (str "data:image/png;base64,AAAA")
  ∧ RiddleModal_render
      (Some {| day := 7;
               question := str "Wer bin ich?";
               type := text;
               options := None;
               correctAnswer := str "Rentier";
               acceptedAnswers := Absent;
               solutionExplanation := str "Es zieht den Schlitten.";
               hints := [str "Es hat ein Geweih."];
               imageUrl := Some (str "data:image/png;base64,AAAA") |})
      false initialModalState
    = RiddlePanel (Some (str "data:image/png;base64,AAAA"))
        (str "Wer bin ich?") []
        (AnswerForm (TextInput []) false (hintButtonText initialModalState)
           false).
Proof.
  split.
  - apply (proj1 (proj2 (extractImage_last_inline
                           [None; Some (str "image/png", str "AAAA"); None]))
             [None] (str "image/png") (str "AAAA") [None]);
      [reflexivity|by constructor].
  - apply (proj1 (proj2 (proj2 (proj2 (extractImage_last_inline
                           [None; Some (str "image/png", str "AAAA"); None]))))
             {| day := 7;
                question := str "Wer bin ich?";
                type := text;
                options := None;
                correctAnswer := str "Rentier";
                acceptedAnswers := Absent;
                solutionExplanation := str "Es zieht den Schlitten.";
                hints := [str "Es hat ein Geweih."];
                imageUrl := Some (str "data:image/png;base64,AAAA") |}
             initialModalState);
      reflexivity.
Defined.
End service.
